(** * Tilting Arpeggios (Circuit Playground Express example)

    A shallow embedding of
    [examples/advanced_examples/circuitplayground_tilting_arpeggios.py]:
    the [CustomizedExpress] board wrapper and the [TiltingArpeggios]
    instrument, with the properties of its note tables, its transposition
    state, its button repeat limit, its tone changes and its pixel display.

    Number model.  Python [int] is [Z].  A Python [float] is modelled by the
    rational number it denotes (every finite binary64 value is a rational);
    infinities and NaN are outside the model.  Each floating-point
    operation is the exact rational operation followed by a rounding
    function [fl], a parameter of the program (Section [Program]); the
    properties that depend on rounding state what they need of it through
    [Rounding], which [binary53], round to nearest even on 53 bits,
    satisfies.  Exponentiation [x ** y] has no rational semantics and is the
    parameter [fpow] of the same section. *)

From Stdlib Require Import ZArith QArith Qround Qpower Qminmax Lia Lqa.
From stdpp Require Import base option list sorting.

#[local] Open Scope Z_scope.

(** ** Python built-ins *)

Module Py.

(** [range(n)] for an [int] n: empty when [n <= 0]. *)
Definition range (n : Z) : list Z := seqZ 0 n.

(** [len(l)]. *)
Definition len {A} (l : list A) : Z := Z.of_nat (length l).

(** [l[i]] on a list or tuple: a negative index counts from the end, and an
    index outside [-len(l) .. len(l)-1] raises [IndexError] ([None]). *)
Definition getitem {A} (l : list A) (i : Z) : option A :=
  if 0 <=? i then l !! Z.to_nat i
  else if - len l <=? i then l !! Z.to_nat (len l + i)
  else None.

(** [int(x)] on a float: truncation toward zero. *)
Definition int (x : Q) : Z :=
  if Qle_bool 0 x then Qfloor x else Qceiling x.

(** [a % b] on [int]s takes the sign of the divisor, as [Z.modulo] does. *)
Definition mod_ (a b : Z) : Z := a mod b.

End Py.

(** ** Module constants *)

Definition HS_OCT : Z := 12.
Definition HS_4TH : Z := 5.
Definition ARPEGGIOS : list (list Z) :=
  [ [0; 4; 7; 10];
    [0; 3; 5; 6; 7; 10] ].
Definition NUM_OCTAVES : Z := 4.

(** ** Note tables *)

(** [create_arpeggio]: the comprehension
    [[octave * HS_OCT + note for octave in range(num_octaves) for note in arpeggio]]. *)
Definition create_arpeggio (arpeggio : list Z) (num_octaves : Z) : list Z :=
  octave ← Py.range num_octaves;
  note ← arpeggio;
  [octave * HS_OCT + note].

Definition create_arpeggios (num_octaves : Z) : list (list Z) :=
  (λ arpeggio, create_arpeggio arpeggio num_octaves) <$> ARPEGGIOS.

(** ** Floating point *)

(** What the properties below rely on when a result is rounded to the
    nearest float: rounding is monotone, leaves a value with a 53-bit
    significand as it is, rounds its own results to themselves, and
    commutes with doubling.  The exponent is not bounded: the values of
    this program stay far from overflow and underflow. *)
Class Rounding (fl : Q → Q) : Prop := {
  fl_mono : ∀ x y : Q, (x <= y)%Q → (fl x <= fl y)%Q;
  fl_exact : ∀ m e : Z, Z.abs m <= 2 ^ 53 →
    (fl (inject_Z m * 2 ^ e) == inject_Z m * 2 ^ e)%Q;
  fl_idem : ∀ x : Q, (fl (fl x) == fl x)%Q;
  fl_double : ∀ x : Q, (fl (2 * x) == 2 * fl x)%Q
}.

(** What the octave property relies on for [2 ** y]: at an integer
    exponent the result is that power of two, without error (the powers of
    two are floats). *)
Class Exponentiation (pow : Q → Q → Q) : Prop := {
  pow_two_int : ∀ (y : Q) (n : Z), (y == inject_Z n)%Q → (pow 2 y == 2 ^ n)%Q
}.

(** *** Rounding to binary64 precision *)

(** The binade of a positive rational: [floor (log2 x)]. *)
Definition ilog2 (x : Q) : Z :=
  let k := Z.log2 (Qnum x) - Z.log2 (Zpos (Qden x)) in
  if Qle_bool (2 ^ k) x then k else k - 1.

(** The nearest integer, the even one of the two when they are equally near. *)
Definition nearest_even (y : Q) : Z :=
  let f := Qfloor y in
  match (y - inject_Z f ?= 1 # 2)%Q with
  | Lt => f
  | Gt => f + 1
  | Eq => if Z.even f then f else f + 1
  end.

(** Rounding of a positive rational to 53 significant bits. *)
Definition round_pos (x : Q) : Q :=
  let e := ilog2 x - 52 in
  (inject_Z (nearest_even (x / 2 ^ e)) * 2 ^ e)%Q.

(** Round to nearest, ties to even, with a significand of 53 bits as in
    binary64 and an exponent without bounds. *)
Definition binary53 (x : Q) : Q :=
  match Qnum x with
  | 0 => 0%Q
  | Zpos _ => round_pos x
  | Zneg _ => (- round_pos (- x))%Q
  end.

(** ** Hardware *)

Definition Color : Type := Z * Z * Z.

(** What the board returns when it is read at one instant: the levels of
    the two buttons and of the slide switch, the acceleration vector of the
    LIS3DH, and [time.monotonic()]. *)
Record Reading := {
  button_a : bool;
  button_b : bool;
  switch : bool;
  acceleration : Q * Q * Q;
  monotonic : Q
}.

(** [audiocore.RawSample]: the sample buffer and its [sample_rate]. *)
Record RawSample := {
  buffer : list Z;
  sample_rate : Z
}.

(** One call [AudioOut.play(sample, loop=...)]. *)
Record Play := {
  played : RawSample;
  loop : bool
}.

(** The attributes of [CustomizedExpress] that its methods read or write.
    [_audio_out] is the history of the [play] calls on that object, the
    latest first: the head is what the speaker plays, since [play] replaces
    the sample being played. *)
Record CustomizedExpress := {
  pixels : list Color;
  brightness : Q;
  _highest_supported_frequency : Z;
  _speaker_enable : bool;
  _volume : Q;
  _audio_out : list Play;
  _audiocore_raw_sample : RawSample
}.

(** The attributes of [TiltingArpeggios]. *)
Record TiltingArpeggios := {
  circle_pos : Z;
  key_offset : Z;
  last_freq : option Q;
  next_freq_change_allowed_at : Q;
  next_press_allowed_at : Q;
  buttons_on : bool * bool;
  arpeg_note_indexes : list (list Z)
}.

(** The instrument ([self]) and the module-level board object ([cpx]). *)
Record State := {
  self : TiltingArpeggios;
  cpx : CustomizedExpress
}.

Definition set_pixels (p : list Color) (c : CustomizedExpress) : CustomizedExpress :=
  {| pixels := p; brightness := brightness c;
     _highest_supported_frequency := _highest_supported_frequency c;
     _speaker_enable := _speaker_enable c; _volume := _volume c;
     _audio_out := _audio_out c; _audiocore_raw_sample := _audiocore_raw_sample c |}.

Definition set_brightness (b : Q) (c : CustomizedExpress) : CustomizedExpress :=
  {| pixels := pixels c; brightness := b;
     _highest_supported_frequency := _highest_supported_frequency c;
     _speaker_enable := _speaker_enable c; _volume := _volume c;
     _audio_out := _audio_out c; _audiocore_raw_sample := _audiocore_raw_sample c |}.

Definition set_volume_attr (v : Q) (c : CustomizedExpress) : CustomizedExpress :=
  {| pixels := pixels c; brightness := brightness c;
     _highest_supported_frequency := _highest_supported_frequency c;
     _speaker_enable := _speaker_enable c; _volume := v;
     _audio_out := _audio_out c; _audiocore_raw_sample := _audiocore_raw_sample c |}.

Definition set_raw_sample (r : RawSample) (c : CustomizedExpress) : CustomizedExpress :=
  {| pixels := pixels c; brightness := brightness c;
     _highest_supported_frequency := _highest_supported_frequency c;
     _speaker_enable := _speaker_enable c; _volume := _volume c;
     _audio_out := _audio_out c; _audiocore_raw_sample := r |}.

Definition set_speaker_enable (b : bool) (c : CustomizedExpress) : CustomizedExpress :=
  {| pixels := pixels c; brightness := brightness c;
     _highest_supported_frequency := _highest_supported_frequency c;
     _speaker_enable := b; _volume := _volume c;
     _audio_out := _audio_out c; _audiocore_raw_sample := _audiocore_raw_sample c |}.

(** [_audio_out.play(sample, loop=l)]. *)
Definition audio_play (r : RawSample) (l : bool) (c : CustomizedExpress) : CustomizedExpress :=
  {| pixels := pixels c; brightness := brightness c;
     _highest_supported_frequency := _highest_supported_frequency c;
     _speaker_enable := _speaker_enable c; _volume := _volume c;
     _audio_out := {| played := r; loop := l |} :: _audio_out c;
     _audiocore_raw_sample := _audiocore_raw_sample c |}.

Definition set_position (pos off : Z) (t : TiltingArpeggios) : TiltingArpeggios :=
  {| circle_pos := pos; key_offset := off; last_freq := last_freq t;
     next_freq_change_allowed_at := next_freq_change_allowed_at t;
     next_press_allowed_at := next_press_allowed_at t;
     buttons_on := buttons_on t; arpeg_note_indexes := arpeg_note_indexes t |}.

Definition set_last_freq (f : option Q) (t : TiltingArpeggios) : TiltingArpeggios :=
  {| circle_pos := circle_pos t; key_offset := key_offset t; last_freq := f;
     next_freq_change_allowed_at := next_freq_change_allowed_at t;
     next_press_allowed_at := next_press_allowed_at t;
     buttons_on := buttons_on t; arpeg_note_indexes := arpeg_note_indexes t |}.

Definition set_next_freq_change_allowed_at (d : Q) (t : TiltingArpeggios) : TiltingArpeggios :=
  {| circle_pos := circle_pos t; key_offset := key_offset t; last_freq := last_freq t;
     next_freq_change_allowed_at := d;
     next_press_allowed_at := next_press_allowed_at t;
     buttons_on := buttons_on t; arpeg_note_indexes := arpeg_note_indexes t |}.

Definition set_next_press_allowed_at (d : Q) (t : TiltingArpeggios) : TiltingArpeggios :=
  {| circle_pos := circle_pos t; key_offset := key_offset t; last_freq := last_freq t;
     next_freq_change_allowed_at := next_freq_change_allowed_at t;
     next_press_allowed_at := d;
     buttons_on := buttons_on t; arpeg_note_indexes := arpeg_note_indexes t |}.

Definition with_self (t : TiltingArpeggios) (s : State) : State :=
  {| self := t; cpx := cpx s |}.

(** ** The program *)

Section Program.

(** Rounding of an exact result to the nearest float, and the float
    exponentiation [x ** y]. *)
Variable fl : Q → Q.
Variable fpow : Q → Q → Q.

Definition fmul (x y : Q) : Q := fl (x * y).
Definition fadd (x y : Q) : Q := fl (x + y).
(** Every divisor in this program is a non-zero constant. *)
Definition fdiv (x y : Q) : Q := fl (x / y).

(** Float literals: 0.25 and 0.5 are binary fractions, the others are
    rounded. *)
Definition C1_FREQ : Q := fl (3270319566257483 # 100000000000000).
Definition STARTING_NOTE : Q := fmul C1_FREQ 2.
Definition MIN_NOTE_PLAY_SECONDS : Q := fl (1 # 5).
Definition BUTTON_REPEAT_AFTER_SECONDS : Q := 1 # 4.

(** *** CustomizedExpress *)

(** The single entry of [_generators], which [_waveform_index = 0]
    selects: [_square_waveform] with length 2. *)
Definition generator_length : Z := 2.

(** [_square_waveform]; [None] is the failed [assert]. *)
Definition _square_waveform (length : Z) (amplitude : Q) : option (list Z) :=
  if length =? 2 then
    let loudest_audible_amplitude : Q := 1 # 2 in
    let max_amplitude := 2 ^ 16 - 1 in
    Some [0; Py.int (fmul (fmul loudest_audible_amplitude amplitude)
                          (inject_Z max_amplitude))]
  else None.

(** [array.array("H", values)]: every value must fit 16 unsigned bits,
    [OverflowError] ([None]) otherwise. *)
Definition array_H (values : list Z) : option (list Z) :=
  if forallb (λ v, (0 <=? v) && (v <=? 65535)) values then Some values else None.

(** [audiocore.RawSample(buffer)]: the sample rate defaults to 8000. *)
Definition new_RawSample (b : list Z) : RawSample :=
  {| buffer := b; sample_rate := 8000 |}.

Definition _create_waveform (c : CustomizedExpress) : option CustomizedExpress :=
  values ← _square_waveform generator_length (_volume c);
  b ← array_H values;
  Some (set_raw_sample (new_RawSample b) c).

Definition set_volume (v : Q) (c : CustomizedExpress) : option CustomizedExpress :=
  _create_waveform (set_volume_attr v c).

(** [CustomizedExpress.__init__]: ten pixels, the speaker disabled, full
    volume, nothing played, and the waveform created. *)
Definition CustomizedExpress_init : option CustomizedExpress :=
  _create_waveform
    {| pixels := replicate 10 (0, 0, 0); brightness := 1;
       _highest_supported_frequency := 20000;
       _speaker_enable := false; _volume := 1;
       _audio_out := []; _audiocore_raw_sample := new_RawSample [] |}.

Definition start_tone (frequency : Q) (c : CustomizedExpress) : CustomizedExpress :=
  if Qle_bool frequency (inject_Z (_highest_supported_frequency c))
     && negb (Qle_bool (_volume c) 0)
  then
    let sample :=
      {| buffer := buffer (_audiocore_raw_sample c);
         sample_rate := Py.int (fmul (inject_Z generator_length) frequency) |} in
    let c := set_raw_sample sample c in
    let c := set_speaker_enable false c in
    let c := audio_play (_audiocore_raw_sample c) true c in
    set_speaker_enable true c
  else c.

(** *** TiltingArpeggios *)

(** [pressed]: the level of button B when [index] is truthy, of button A
    otherwise; the clock is read only when the button is down. *)
Definition raw_button (index : Z) (r : Reading) : bool :=
  if index =? 0 then button_a r else button_b r.

Definition pressed (index : Z) (r : Reading) (t : TiltingArpeggios)
  : bool * TiltingArpeggios :=
  if raw_button index r then
    let now := monotonic r in
    if Qle_bool (next_press_allowed_at t) now then
      (true, set_next_press_allowed_at (fadd now BUTTON_REPEAT_AFTER_SECONDS) t)
    else (false, t)
  else (false, t).

Definition pixel_index (circle_pos : Z) : Z := Py.mod_ (4 - circle_pos) 10.

Definition pixel_color (circle_pos : Z) : Color :=
  if circle_pos <=? 9 then (0, 255, 0) else (255, 255, 0).

(** [update_pixel]: [fill] darkens every pixel, then one pixel is set. *)
Definition update_pixel (circle_pos : Z) (c : CustomizedExpress) : CustomizedExpress :=
  let filled := replicate (length (pixels c)) ((0, 0, 0) : Color) in
  set_pixels (<[Z.to_nat (pixel_index circle_pos) := pixel_color circle_pos]> filled) c.

Definition tilt (r : Reading) : Q :=
  let standard_gravity := fl (981 # 100) in
  let constrained_accel :=
    Qmin (Qmax 0 (- snd (fst (acceleration r)))) standard_gravity in
  fdiv constrained_accel standard_gravity.

Definition advance (amount : Z) (t : TiltingArpeggios) : TiltingArpeggios :=
  let pos := Py.mod_ (circle_pos t + amount) HS_OCT in
  set_position pos (Py.mod_ (pos * HS_4TH) HS_OCT) t.

(** [process_button_presses]: button A with direction 1, then button B
    with direction -1; each call of [pressed] reads the board anew. *)
Definition process_button (index direction : Z) (r : Reading) (s : State) : State :=
  let '(accepted, t) := pressed index r (self s) in
  if accepted then
    let t := advance direction t in
    {| self := t; cpx := update_pixel (circle_pos t) (cpx s) |}
  else with_self t s.

Definition process_button_presses (ra rb : Reading) (s : State) : State :=
  process_button 1 (-1) rb (process_button 0 1 ra s).

Definition calc_freq (i : Z) : Q :=
  fmul STARTING_NOTE (fpow 2 (fdiv (inject_Z i) (inject_Z HS_OCT))).

(** The locals of [freq]. *)
Definition num_arpeg_notes_in_range (selected_arpeg : Z) : option Z :=
  arpeggio ← Py.getitem ARPEGGIOS selected_arpeg;
  Some (Py.len arpeggio * NUM_OCTAVES + 1).

Definition arpeg_index (normalized_position : Q) (selected_arpeg : Z) : option Z :=
  n ← num_arpeg_notes_in_range selected_arpeg;
  Some (Py.int (fmul normalized_position (inject_Z n))).

(** [freq]; [None] is an [IndexError]. *)
Definition freq (normalized_position : Q) (selected_arpeg : Z) (t : TiltingArpeggios)
  : option Q :=
  selected_arpeg_note_indexes ← Py.getitem (arpeg_note_indexes t) selected_arpeg;
  i ← arpeg_index normalized_position selected_arpeg;
  note ← Py.getitem selected_arpeg_note_indexes i;
  Some (calc_freq (key_offset t + note)).

Definition arpeggio_index (r : Reading) : Z := if switch r then 0 else 1.

(** [freq != self.last_freq]: [None] differs from every float. *)
Definition freq_differs (f : Q) (last : option Q) : bool :=
  match last with
  | Some l => negb (Qeq_bool f l)
  | None => true
  end.

Definition change_tone_if_needed (r : Reading) (s : State) : option State :=
  f ← freq (tilt r) (arpeggio_index r) (self s);
  if freq_differs f (last_freq (self s)) then
    Some {| self := set_last_freq (Some f) (self s); cpx := start_tone f (cpx s) |}
  else Some s.

(** [TiltingArpeggios.__init__], with the two clock readings and the
    reading of the buttons. *)
Definition TiltingArpeggios_init (t1 t2 : Q) (r : Reading) (c : CustomizedExpress) : State :=
  let c := set_brightness (fl (1 # 5)) c in
  let c := update_pixel 0 c in
  {| self := {| circle_pos := 0; key_offset := 0; last_freq := None;
                next_freq_change_allowed_at := t1;
                next_press_allowed_at := t2;
                buttons_on := (button_a r, button_b r);
                arpeg_note_indexes := create_arpeggios (NUM_OCTAVES + 2) |};
     cpx := c |}.

(** What one turn of the loop of [run] reads: the board at each of the two
    calls of [pressed], the clock when the deadline is tested and when it
    is set, and the board when the tone is chosen. *)
Record Turn := {
  at_button_a : Reading;
  at_button_b : Reading;
  at_test : Q;
  at_set : Q;
  at_tone : Reading
}.

(** The body of [while True] in [run]. *)
Definition run_turn (u : Turn) (s : State) : option State :=
  let s := process_button_presses (at_button_a u) (at_button_b u) s in
  if Qle_bool (next_freq_change_allowed_at (self s)) (at_test u) then
    let t := set_next_freq_change_allowed_at
               (fadd (at_set u) MIN_NOTE_PLAY_SECONDS) (self s) in
    change_tone_if_needed (at_tone u) (with_self t s)
  else Some s.

(** The first turns of [run], one per element of [us]. *)
Fixpoint run (us : list Turn) (s : State) : option State :=
  match us with
  | [] => Some s
  | u :: us => s ← run_turn u s; run us s
  end.

(** The module body: the board, [set_volume(1.0)], the instrument. *)
Definition main (t1 t2 : Q) (r : Reading) : option State :=
  c ← CustomizedExpress_init;
  c ← set_volume 1 c;
  Some (TiltingArpeggios_init t1 t2 r c).

End Program.

(** ** Vocabulary of the properties *)

(** A pattern that rises and stays within one octave. *)
Definition rising_in_octave (arpeggio : list Z) : Prop :=
  StronglySorted Z.lt arpeggio ∧ Forall (λ note, 0 ≤ note < HS_OCT) arpeggio.

(** The transposition state is consistent: a position on the circle of
    fourths, and the key offset that belongs to it. *)
Definition transposition_ok (t : TiltingArpeggios) : Prop :=
  0 ≤ circle_pos t ≤ 11 ∧ key_offset t = (circle_pos t * 5) mod 12.

(** A stand-in for exponentiation: the power at the integer exponents,
    and the chord between two of them in between.  With [binary53] it
    instantiates the parameters of the program when a property is evaluated
    on concrete inputs. *)
Definition pow_chords (b y : Q) : Q :=
  (b ^ Qfloor y * (1 + (b - 1) * (y - inject_Z (Qfloor y))))%Q.

(** The number of [play] calls made on the audio output so far. *)
Definition plays (s : State) : nat := length (_audio_out (cpx s)).

(** A board at rest and level, the board object as [CustomizedExpress()]
    leaves it, and the instrument as [TiltingArpeggios()] leaves it at time 0:
    concrete inputs on which the properties are evaluated. *)
Definition board_at_rest : Reading :=
  {| button_a := false; button_b := false; switch := true;
     acceleration := (0, 0, 0)%Q; monotonic := 0 |}.

Definition fresh_board : CustomizedExpress :=
  {| pixels := replicate 10 (0, 0, 0); brightness := 1;
     _highest_supported_frequency := 20000;
     _speaker_enable := false; _volume := 1; _audio_out := [];
     _audiocore_raw_sample := {| buffer := [0; 32767]; sample_rate := 8000 |} |}.

Definition fresh_state : State :=
  TiltingArpeggios_init binary53 0 0 board_at_rest fresh_board.

(** The board with the given button levels at the given time, level and
    with the switch on. *)
Definition board_with (a b : bool) (now : Q) : Reading :=
  {| button_a := a; button_b := b; switch := true;
     acceleration := (0, 0, 0)%Q; monotonic := now |}.

(** A turn of the loop that finds the buttons up at time [now]. *)
Definition turn_at (now : Q) : Turn :=
  {| at_button_a := board_with false false now;
     at_button_b := board_with false false now;
     at_test := now; at_set := now;
     at_tone := board_with false false now |}.

(** The frequency that [change_tone_if_needed] obtains from [freq]. *)
Definition target_freq (fl : Q → Q) (fpow : Q → Q → Q) (r : Reading) (s : State)
  : option Q :=
  freq fl fpow (tilt fl r) (arpeggio_index r) (self s).

(** The state in which a turn of the loop tests the deadline, whether the
    test passes so that the frequency is evaluated again, and the frequency
    that the evaluation obtains. *)
Definition after_buttons (fl : Q → Q) (u : Turn) (s : State) : State :=
  process_button_presses fl (at_button_a u) (at_button_b u) s.

Definition evaluates (fl : Q → Q) (u : Turn) (s : State) : bool :=
  Qle_bool (next_freq_change_allowed_at (self (after_buttons fl u s))) (at_test u).

Definition turn_freq (fl : Q → Q) (fpow : Q → Q → Q) (u : Turn) (s : State)
  : option Q :=
  target_freq fl fpow (at_tone u) (after_buttons fl u s).

(** No turn of [us], run from [s], evaluates the frequency. *)
Fixpoint quiet (fl : Q → Q) (us : list Turn) (s : State) : bool :=
  match us with
  | [] => true
  | u :: us => negb (evaluates fl u s) && quiet fl us (after_buttons fl u s)
  end.

(** ** Vocabulary of the further properties *)

(** The local [note_index] of [freq], whose frequency [freq] returns. *)
Definition note_index (fl : Q → Q) (normalized_position : Q) (selected_arpeg : Z)
    (t : TiltingArpeggios) : option Z :=
  selected_arpeg_note_indexes ← Py.getitem (arpeg_note_indexes t) selected_arpeg;
  i ← arpeg_index fl normalized_position selected_arpeg;
  note ← Py.getitem selected_arpeg_note_indexes i;
  Some (key_offset t + note).

(** The ring of ten pixels shows a circle position: the pixel of that
    position has its colour and the others are dark. *)
Definition shows (c : CustomizedExpress) (pos : Z) : Prop :=
  pixels c
  = <[Z.to_nat (pixel_index pos) := pixel_color pos]> (replicate 10 ((0, 0, 0) : Color)).

(** What the program keeps true from [main] on: the transposition state is
    consistent, the ring shows the circle position, the note tables are
    those of [__init__], and the board has the ceiling, the volume and the
    waveform that [CustomizedExpress()] and [set_volume(1.0)] gave it. *)
Definition program_ok (s : State) : Prop :=
  transposition_ok (self s)
  ∧ shows (cpx s) (circle_pos (self s))
  ∧ arpeg_note_indexes (self s) = create_arpeggios (NUM_OCTAVES + 2)
  ∧ _highest_supported_frequency (cpx s) = 20000
  ∧ _volume (cpx s) = 1%Q
  ∧ buffer (_audiocore_raw_sample (cpx s)) = [0; 32767].

(** What the bounds on the frequencies rely on for [2 ** y]: it does not
    decrease when the exponent grows. *)
Class IncreasingPow (pow : Q → Q → Q) : Prop := {
  pow_two_mono : ∀ x y : Q, (x <= y)%Q → (pow 2 x <= pow 2 y)%Q
}.

(** * Properties *)

(** ** Note tables *)

Section NoteTables.

Implicit Types (arpeggio : list Z) (n o : Z).

Lemma octave_notes_fmap arpeggio o :
  (note ← arpeggio; [o * HS_OCT + note]) = (λ note, o * HS_OCT + note) <$> arpeggio.
Proof.
  induction arpeggio as [|x l IH]; [done|].
  rewrite bind_cons, IH. done.
Qed.

Lemma create_arpeggio_nonpos arpeggio n : n ≤ 0 → create_arpeggio arpeggio n = [].
Proof. intros Hn. unfold create_arpeggio, Py.range. by rewrite seqZ_nil. Qed.

(** One more octave appends the pattern, twelve half-steps higher. *)
Lemma create_arpeggio_succ arpeggio n :
  0 ≤ n →
  create_arpeggio arpeggio (Z.succ n)
  = create_arpeggio arpeggio n ++ ((λ note, n * HS_OCT + note) <$> arpeggio).
Proof.
  intros Hn. unfold create_arpeggio, Py.range.
  rewrite <- (Z2Nat.id n) at 1 by done.
  rewrite <- Nat2Z.inj_succ, seqZ_S, bind_app, bind_singleton.
  rewrite Z2Nat.id by done. simpl. by rewrite octave_notes_fmap.
Qed.

Lemma create_arpeggio_length arpeggio n :
  length (create_arpeggio arpeggio n) = (Z.to_nat n * length arpeggio)%nat.
Proof.
  destruct (Z.le_gt_cases 0 n) as [Hn|Hn].
  - revert n Hn. apply natlike_ind.
    + by rewrite create_arpeggio_nonpos.
    + intros n Hn IH.
      rewrite create_arpeggio_succ, length_app, length_fmap, IH by done.
      rewrite Z2Nat.inj_succ by done. lia.
  - rewrite create_arpeggio_nonpos by lia.
    replace (Z.to_nat n) with 0%nat by lia. done.
Qed.

Lemma create_arpeggio_lookup arpeggio n o (i : nat) note :
  0 ≤ o < n → arpeggio !! i = Some note →
  create_arpeggio arpeggio n !! (Z.to_nat o * length arpeggio + i)%nat
  = Some (o * HS_OCT + note).
Proof.
  intros [Ho Hon] Hi. assert (0 ≤ n) as Hn by lia.
  revert n Hn Hon. apply (natlike_ind (λ n, o < n → _)); [lia|].
  intros n Hn IH Hon. rewrite create_arpeggio_succ by done.
  pose proof (lookup_lt_Some _ _ _ Hi) as Hlt.
  destruct (decide (o = n)) as [->|Hne].
  - rewrite lookup_app_r by (rewrite create_arpeggio_length; lia).
    rewrite create_arpeggio_length.
    replace (_ + i - _)%nat with i by lia.
    by rewrite list_lookup_fmap, Hi.
  - rewrite lookup_app_l; [apply IH; lia|].
    rewrite create_arpeggio_length.
    assert (Z.to_nat o + 1 ≤ Z.to_nat n)%nat as Hle by lia.
    apply (Nat.mul_le_mono_r _ _ (length arpeggio)) in Hle. lia.
Qed.

Lemma create_arpeggio_bounds arpeggio n :
  Forall (λ note, 0 ≤ note < HS_OCT) arpeggio → 0 ≤ n →
  Forall (λ x, 0 ≤ x < n * HS_OCT) (create_arpeggio arpeggio n).
Proof.
  intros Hb. revert n. apply natlike_ind.
  - by rewrite create_arpeggio_nonpos.
  - intros n Hn IH. rewrite create_arpeggio_succ by done.
    apply Forall_app; split.
    + eapply Forall_impl; [exact IH|]. unfold HS_OCT. simpl. lia.
    + apply Forall_fmap. eapply Forall_impl; [exact Hb|].
      unfold HS_OCT. simpl. lia.
Qed.

Lemma create_arpeggio_sorted arpeggio n :
  rising_in_octave arpeggio → StronglySorted Z.lt (create_arpeggio arpeggio n).
Proof.
  intros [Hs Hb]. destruct (Z.le_gt_cases 0 n) as [Hn|Hn];
    [|rewrite create_arpeggio_nonpos by lia; constructor].
  revert n Hn. apply natlike_ind.
  - rewrite create_arpeggio_nonpos by done. constructor.
  - intros n Hn IH. rewrite create_arpeggio_succ by done.
    apply StronglySorted_app_2; [|done|].
    + intros x y Hx Hy.
      pose proof (create_arpeggio_bounds arpeggio n Hb Hn) as Hbn.
      rewrite Forall_forall in Hbn. apply Hbn in Hx.
      apply list_elem_of_fmap in Hy as (note & -> & Hnote).
      rewrite Forall_forall in Hb. apply Hb in Hnote. lia.
    + apply (StronglySorted_fmap _ Z.lt); [|done]. intros x y. lia.
Qed.

Lemma StronglySorted_lookup_lt (l : list Z) (j k : nat) x y :
  StronglySorted Z.lt l → (j < k)%nat → l !! j = Some x → l !! k = Some y → x < y.
Proof.
  intros Hs. revert j k. induction Hs as [|a l Hs IH Ha]; intros j k Hjk Hj Hk.
  - done.
  - destruct k as [|k]; [lia|]. simpl in Hk. destruct j as [|j].
    + injection Hj as <-. rewrite Forall_forall in Ha.
      apply Ha. eapply list_elem_of_lookup_2. exact Hk.
    + simpl in Hj. apply (IH j k); [lia|done..].
Qed.

Lemma ARPEGGIOS_rising arpeggio : arpeggio ∈ ARPEGGIOS → rising_in_octave arpeggio.
Proof.
  unfold ARPEGGIOS. intros Hin.
  apply elem_of_cons in Hin as [->|Hin];
    [|apply list_elem_of_singleton in Hin as ->].
  all: split; unfold HS_OCT; repeat constructor; lia.
Qed.

Lemma getitem_nonneg {A} (l : list A) (i : Z) :
  0 ≤ i → Py.getitem l i = l !! Z.to_nat i.
Proof. intros Hi. unfold Py.getitem. by rewrite (proj2 (Z.leb_le 0 i)). Qed.

End NoteTables.

(** C3. For each of the two arpeggio definitions of the program and every
    number of octaves from 1 up, the table built by [create_arpeggio] holds
    [o * 12 + arpeggio[i]] at position [o * len(arpeggio) + i], for octave
    [o] and pattern position [i]; it never decreases from one position to
    a later one (it even rises, see [create_arpeggio_sorted]); and its
    length is [len(arpeggio) * num_octaves]. *)
Theorem create_arpeggio_table (arpeggio : list Z) (num_octaves : Z) :
  arpeggio ∈ ARPEGGIOS → 1 ≤ num_octaves →
  let table := create_arpeggio arpeggio num_octaves in
  (∀ o i note : Z,
     0 ≤ o < num_octaves → 0 ≤ i → Py.getitem arpeggio i = Some note →
     Py.getitem table (o * Py.len arpeggio + i) = Some (o * 12 + note))
  ∧ (∀ j k x y : Z,
       0 ≤ j < k → Py.getitem table j = Some x → Py.getitem table k = Some y →
       x ≤ y)
  ∧ Py.len table = Py.len arpeggio * num_octaves.
Proof.
  intros Hin Hn table. split; [|split].
  - intros o i note Ho Hi Hnote. rewrite getitem_nonneg in Hnote by done.
    unfold Py.len. rewrite getitem_nonneg by lia.
    replace (Z.to_nat (o * Z.of_nat (length arpeggio) + i))
      with (Z.to_nat o * length arpeggio + Z.to_nat i)%nat by lia.
    by apply create_arpeggio_lookup.
  - intros j k x y Hjk Hj Hk. rewrite getitem_nonneg in Hj, Hk by lia.
    apply Z.lt_le_incl.
    apply (StronglySorted_lookup_lt table (Z.to_nat j) (Z.to_nat k)); [|lia|done..].
    apply create_arpeggio_sorted, ARPEGGIOS_rising, Hin.
  - unfold Py.len, table. rewrite create_arpeggio_length. lia.
Qed.

Lemma create_arpeggio_table_witness :
  let table := create_arpeggio [0; 4; 7; 10] 2 in
  (∀ o i note : Z,
     0 ≤ o < 2 → 0 ≤ i → Py.getitem [0; 4; 7; 10] i = Some note →
     Py.getitem table (o * Py.len [0; 4; 7; 10] + i) = Some (o * 12 + note))
  ∧ (∀ j k x y : Z,
       0 ≤ j < k → Py.getitem table j = Some x → Py.getitem table k = Some y →
       x ≤ y)
  ∧ Py.len table = Py.len [0; 4; 7; 10] * 2.
Proof.
  apply (create_arpeggio_table [0; 4; 7; 10] 2).
  - unfold ARPEGGIOS. apply list_elem_of_here.
  - lia.
Defined.

(** ** Transposition *)

Lemma advance_circle_pos (amount : Z) (t : TiltingArpeggios) :
  circle_pos (advance amount t) = (circle_pos t + amount) mod 12.
Proof. reflexivity. Qed.

Lemma advance_key_offset (amount : Z) (t : TiltingArpeggios) :
  key_offset (advance amount t) = (circle_pos (advance amount t) * 5) mod 12.
Proof. reflexivity. Qed.

Lemma advance_ok (amount : Z) (t : TiltingArpeggios) :
  transposition_ok (advance amount t).
Proof.
  split; [|apply advance_key_offset].
  rewrite advance_circle_pos.
  pose proof (Z.mod_pos_bound (circle_pos t + amount) 12). lia.
Qed.

(** C4. After [__init__], and after every call of [advance] with direction
    1 or -1 that follows it, [circle_pos] is an integer from 0 to 11 (the
    modulo is the mathematical one and never negative) and [key_offset] is
    [(circle_pos * 5) mod 12]. *)
Theorem transposition_invariant
    (fl : Q → Q) (t1 t2 : Q) (r : Reading) (c : CustomizedExpress)
    (directions : list Z) :
  Forall (λ direction, direction = 1 ∨ direction = -1) directions →
  transposition_ok
    (foldl (λ t direction, advance direction t)
           (self (TiltingArpeggios_init fl t1 t2 r c)) directions).
Proof.
  intros _. induction directions as [|direction directions _] using rev_ind.
  - split; simpl; [lia|reflexivity].
  - rewrite foldl_app. simpl. apply advance_ok.
Qed.

Lemma transposition_invariant_witness :
  transposition_ok
    (foldl (λ t direction, advance direction t)
           (self (TiltingArpeggios_init binary53 0 0 board_at_rest fresh_board))
           [-1; -1; 1]).
Proof.
  apply (transposition_invariant binary53 0 0 board_at_rest fresh_board [-1; -1; 1]).
  repeat (apply Forall_cons_2; [first [left; reflexivity|right; reflexivity]|]).
  apply Forall_nil_2.
Defined.

(** C5. From [circle_pos = 0], twelve calls [advance(1)] in a row bring
    [circle_pos] back to 0 and [key_offset] to 0, and one call [advance(-1)]
    gives [circle_pos = 11] and [key_offset = (11 * 5) mod 12 = 7]. *)
Theorem transposition_wraparound (t : TiltingArpeggios) :
  circle_pos t = 0 →
  circle_pos (Nat.iter 12 (advance 1) t) = 0
  ∧ key_offset (Nat.iter 12 (advance 1) t) = 0
  ∧ circle_pos (advance (-1) t) = 11
  ∧ key_offset (advance (-1) t) = (11 * 5) mod 12
  ∧ (11 * 5) mod 12 = 7.
Proof.
  intros H0. destruct t as [pos off last nf np bo tables].
  simpl in H0. subst pos. repeat split.
Qed.

Lemma transposition_wraparound_witness :
  circle_pos (Nat.iter 12 (advance 1) (self fresh_state)) = 0
  ∧ key_offset (Nat.iter 12 (advance 1) (self fresh_state)) = 0
  ∧ circle_pos (advance (-1) (self fresh_state)) = 11
  ∧ key_offset (advance (-1) (self fresh_state)) = (11 * 5) mod 12
  ∧ (11 * 5) mod 12 = 7.
Proof.
  apply (transposition_wraparound (self fresh_state)). reflexivity.
Defined.

(** ** Floating point and truncation *)

Section Floats.

Context (fl : Q → Q) `{!Rounding fl}.

Lemma fl_proper (x y : Q) : (x == y)%Q → (fl x == fl y)%Q.
Proof.
  intros Hxy. apply Qle_antisym; apply fl_mono; rewrite Hxy; apply Qle_refl.
Qed.

#[export] Instance fl_Proper : Proper (Qeq ==> Qeq) fl.
Proof. intros x y. apply fl_proper. Qed.

(** Integers up to [2 ^ 53] are floats. *)
Lemma fl_Z (m : Z) : Z.abs m ≤ 2 ^ 53 → (fl (inject_Z m) == inject_Z m)%Q.
Proof.
  intros Hm. pose proof (fl_exact m 0 Hm) as H. simpl in H.
  rewrite <- (Qmult_1_r (inject_Z m)) at 2. rewrite <- H.
  apply fl_proper. symmetry. apply Qmult_1_r.
Qed.

Lemma fl_between (x : Q) (n : Z) :
  0 ≤ n ≤ 2 ^ 53 → (0 <= x <= inject_Z n)%Q → (0 <= fl x <= inject_Z n)%Q.
Proof.
  intros Hn [H0 Hx]. split.
  - apply Qle_trans with (fl (inject_Z 0)); [|by apply fl_mono].
    apply Qle_lteq. right. symmetry. apply fl_Z. simpl. lia.
  - apply Qle_trans with (fl (inject_Z n)); [by apply fl_mono|].
    apply Qle_lteq. right. apply fl_Z. lia.
Qed.

(** Scaling by a power of two commutes with rounding. *)
Lemma fl_half (x : Q) : (fl (x / 2) == fl x / 2)%Q.
Proof.
  assert (fl x == 2 * fl (x / 2))%Q as ->.
  { rewrite <- fl_double. apply fl_proper. field. }
  field.
Qed.

Lemma fl_scale_nat (n : nat) (x : Q) :
  (fl (2 ^ Z.of_nat n * x) == 2 ^ Z.of_nat n * fl x)%Q
  ∧ (fl (2 ^ (- Z.of_nat n) * x) == 2 ^ (- Z.of_nat n) * fl x)%Q.
Proof.
  induction n as [|n [IHp IHn]].
  - split; (apply Qeq_trans with (fl x); [apply fl_proper|]); simpl; ring.
  - rewrite Nat2Z.inj_succ. split.
    + replace (Z.succ (Z.of_nat n)) with (Z.of_nat n + 1) by lia.
      rewrite Qpower_plus by done. change (2 ^ 1)%Q with 2%Q.
      generalize dependent (2 ^ Z.of_nat n)%Q. intros u IHp.
      apply Qeq_trans with (fl (2 * (u * x))); [apply fl_proper; ring|].
      rewrite fl_double, IHp. ring.
    + replace (- Z.succ (Z.of_nat n)) with (- Z.of_nat n + -1) by lia.
      rewrite Qpower_plus by done. change (2 ^ (-1))%Q with (/ 2)%Q.
      generalize dependent (2 ^ (- Z.of_nat n))%Q. intros u IHn.
      apply Qeq_trans with (fl (u * x / 2)); [apply fl_proper; field|].
      rewrite fl_half, IHn. field.
Qed.

Lemma fl_scale (k : Z) (x : Q) : (fl (2 ^ k * x) == 2 ^ k * fl x)%Q.
Proof.
  destruct (Z.le_gt_cases 0 k) as [Hk|Hk].
  - rewrite <- (Z2Nat.id k) by done. apply fl_scale_nat.
  - replace k with (- Z.of_nat (Z.to_nat (- k))) by lia. apply fl_scale_nat.
Qed.

End Floats.

Lemma int_between (x : Q) (n : Z) :
  (0 <= x <= inject_Z n)%Q → 0 ≤ Py.int x ≤ n.
Proof.
  intros [H0 Hx]. unfold Py.int.
  rewrite (proj2 (Qle_bool_iff 0 x) H0). split.
  - pose proof (Qfloor_resp_le (inject_Z 0) x H0) as H. by rewrite Qfloor_Z in H.
  - pose proof (Qfloor_resp_le x (inject_Z n) Hx) as H. by rewrite Qfloor_Z in H.
Qed.

Lemma int_proper (x y : Q) : (x == y)%Q → Py.int x = Py.int y.
Proof.
  intros Hxy. unfold Py.int.
  assert (Qle_bool 0 x = Qle_bool 0 y) as ->.
  { apply eq_true_iff_eq. rewrite !Qle_bool_iff. by rewrite Hxy. }
  by rewrite (Qfloor_comp _ _ Hxy), (Qceiling_comp _ _ Hxy).
Qed.

Lemma int_Z (n : Z) : Py.int (inject_Z n) = n.
Proof. unfold Py.int. destruct (Qle_bool 0 (inject_Z n)); [apply Qfloor_Z|apply Qceiling_Z]. Qed.

(** *** [binary53] is a rounding *)

Section Binary53.

#[local] Open Scope Q_scope.

Lemma pow2_pos (e : Z) : 0 < 2 ^ e.
Proof. by apply Qpower_0_lt. Qed.

Lemma pow2_plus (a b : Z) : 2 ^ (a + b) == 2 ^ a * 2 ^ b.
Proof. by apply Qpower_plus. Qed.

Lemma pow2_le (a b : Z) : (a ≤ b)%Z → 2 ^ a <= 2 ^ b.
Proof. intros H. by apply Qpower_le_compat_l. Qed.

Lemma pow2_inject (n : Z) : (0 ≤ n)%Z → inject_Z (2 ^ n) == 2 ^ n.
Proof. intros H. by rewrite Zpower_Qpower. Qed.

(** A positive rational lies in one binade only. *)
Lemma binade_unique (x : Q) (a b : Z) :
  2 ^ a <= x < 2 ^ (a + 1) → 2 ^ b <= x < 2 ^ (b + 1) → a = b.
Proof.
  intros [Ha1 Ha2] [Hb1 Hb2].
  destruct (Z.lt_trichotomy a b) as [H|[H|H]]; [|done|].
  - exfalso. assert (2 ^ (a + 1) <= 2 ^ b) by (apply pow2_le; lia). lra.
  - exfalso. assert (2 ^ (b + 1) <= 2 ^ a) by (apply pow2_le; lia). lra.
Qed.

Lemma log2_bounds (p : positive) :
  2 ^ Z.log2 (Zpos p) <= inject_Z (Zpos p) < 2 ^ (Z.log2 (Zpos p) + 1).
Proof.
  pose proof (Z.log2_spec (Zpos p) (Pos2Z.is_pos p)) as [Hlo Hhi].
  pose proof (Z.log2_nonneg (Zpos p)) as Hnn.
  rewrite <- !pow2_inject by lia. rewrite <- Zle_Qle, <- Zlt_Qlt.
  split; [done|]. by rewrite Z.add_1_r.
Qed.

Lemma log2_quotient (p d : positive) :
  let k := (Z.log2 (Zpos p) - Z.log2 (Zpos d))%Z in
  2 ^ (k - 1) < Zpos p # d ∧ Zpos p # d < 2 ^ (k + 1).
Proof.
  intros k. pose proof (log2_bounds p) as [Hp1 Hp2].
  pose proof (log2_bounds d) as [Hd1 Hd2].
  assert (0 < inject_Z (Z.pos d)) as Hd0 by done.
  rewrite (Qmake_Qdiv (Z.pos p) d). split.
  - apply Qlt_shift_div_l; [done|].
    apply Qlt_le_trans with (2 ^ (k - 1) * 2 ^ (Z.log2 (Zpos d) + 1)).
    + apply Qmult_lt_l; [apply pow2_pos|done].
    + rewrite <- pow2_plus.
      by replace (k - 1 + (Z.log2 (Zpos d) + 1))%Z with (Z.log2 (Zpos p))
        by (unfold k; lia).
  - apply Qlt_shift_div_r; [done|].
    apply Qlt_le_trans with (2 ^ (k + 1) * 2 ^ Z.log2 (Zpos d)).
    + rewrite <- pow2_plus.
      by replace (k + 1 + Z.log2 (Zpos d))%Z with (Z.log2 (Zpos p) + 1)%Z
        by (unfold k; lia).
    + apply Qmult_le_l; [apply pow2_pos|done].
Qed.

Lemma ilog2_spec (x : Q) : 0 < x → 2 ^ ilog2 x <= x < 2 ^ (ilog2 x + 1).
Proof.
  intros Hx. destruct x as [[|p|p] d]; [done| |done].
  destruct (log2_quotient p d) as [Hlo Hhi]. unfold ilog2.
  cbn [Qnum Qden]. set (k := (Z.log2 (Zpos p) - Z.log2 (Zpos d))%Z) in *.
  destruct (Qle_bool (2 ^ k) (Zpos p # d)) eqn:Hk.
  - apply Qle_bool_iff in Hk. done.
  - replace (k - 1 + 1)%Z with k by lia. split; [by apply Qlt_le_weak|].
    apply Qnot_le_lt. intros H. apply Qle_bool_iff in H. congruence.
Qed.

Lemma ilog2_unique (x : Q) (a : Z) : 2 ^ a <= x < 2 ^ (a + 1) → ilog2 x = a.
Proof.
  intros Ha. apply (binade_unique x); [|done]. apply ilog2_spec.
  eapply Qlt_le_trans; [apply (pow2_pos a)|apply Ha].
Qed.

Lemma nearest_even_floor (y : Q) :
  (Qfloor y ≤ nearest_even y ≤ Qfloor y + 1)%Z.
Proof.
  unfold nearest_even.
  destruct (y - inject_Z (Qfloor y) ?= 1 # 2); [destruct (Z.even _)|..]; lia.
Qed.

Lemma nearest_even_proper (y y' : Q) : y == y' → nearest_even y = nearest_even y'.
Proof.
  intros H. unfold nearest_even. rewrite (Qfloor_comp _ _ H).
  assert (y - inject_Z (Qfloor y') == y' - inject_Z (Qfloor y')) as H'
    by (by rewrite H).
  by rewrite (Qcompare_comp _ _ H' _ _ (Qeq_refl _)).
Qed.

Lemma nearest_even_Z (z : Z) : nearest_even (inject_Z z) = z.
Proof.
  unfold nearest_even. rewrite Qfloor_Z.
  destruct (Qcompare_spec (inject_Z z - inject_Z z) (1 # 2)) as [H|H|H];
    [exfalso; lra|done|exfalso; lra].
Qed.

Lemma nearest_even_mono (y1 y2 : Q) : y1 <= y2 → (nearest_even y1 ≤ nearest_even y2)%Z.
Proof.
  intros Hy. pose proof (Qfloor_resp_le _ _ Hy) as Hf.
  destruct (Z_le_lt_eq_dec _ _ Hf) as [Hlt|Heq].
  - pose proof (nearest_even_floor y1). pose proof (nearest_even_floor y2). lia.
  - unfold nearest_even. rewrite <- Heq.
    destruct (Qcompare_spec (y1 - inject_Z (Qfloor y1)) (1 # 2)) as [H1|H1|H1];
      destruct (Qcompare_spec (y2 - inject_Z (Qfloor y1)) (1 # 2)) as [H2|H2|H2];
      try destruct (Z.even (Qfloor y1)); try lia; exfalso; lra.
Qed.

(** The rounded significand of a positive number has 53 bits. *)
Lemma scaled_range (x : Q) :
  0 < x → inject_Z (2 ^ 52) <= x / 2 ^ (ilog2 x - 52) < inject_Z (2 ^ 53).
Proof.
  intros Hx. destruct (ilog2_spec x Hx) as [Hlo Hhi].
  pose proof (pow2_pos (ilog2 x - 52)) as He.
  rewrite !pow2_inject by lia. split.
  - apply Qle_shift_div_l; [done|]. rewrite <- pow2_plus.
    by replace (52 + (ilog2 x - 52))%Z with (ilog2 x) by lia.
  - apply Qlt_shift_div_r; [done|]. rewrite <- pow2_plus.
    by replace (53 + (ilog2 x - 52))%Z with (ilog2 x + 1)%Z by lia.
Qed.

Lemma significand_range (x : Q) :
  0 < x → (2 ^ 52 ≤ nearest_even (x / 2 ^ (ilog2 x - 52)) ≤ 2 ^ 53)%Z.
Proof.
  intros Hx. destruct (scaled_range x Hx) as [Hlo Hhi].
  apply nearest_even_mono in Hlo. apply Qlt_le_weak, nearest_even_mono in Hhi.
  by rewrite nearest_even_Z in Hlo, Hhi.
Qed.

Lemma round_pos_range (x : Q) :
  0 < x → 2 ^ ilog2 x <= round_pos x <= 2 ^ (ilog2 x + 1).
Proof.
  intros Hx. destruct (significand_range x Hx) as [Hlo Hhi].
  unfold round_pos. pose proof (pow2_pos (ilog2 x - 52)) as He.
  rewrite Zle_Qle in Hlo, Hhi. rewrite !pow2_inject in Hlo, Hhi by lia. split.
  - replace (ilog2 x) with (52 + (ilog2 x - 52))%Z at 1 by lia.
    rewrite pow2_plus. by apply Qmult_le_r.
  - replace (ilog2 x + 1)%Z with (53 + (ilog2 x - 52))%Z by lia.
    rewrite pow2_plus. by apply Qmult_le_r.
Qed.

Lemma round_pos_pos (x : Q) : 0 < x → 0 < round_pos x.
Proof.
  intros Hx. eapply Qlt_le_trans; [apply (pow2_pos (ilog2 x))|].
  by apply round_pos_range.
Qed.

Lemma ilog2_mono (x1 x2 : Q) : 0 < x1 → x1 <= x2 → (ilog2 x1 ≤ ilog2 x2)%Z.
Proof.
  intros H1 H12. assert (0 < x2) as H2 by lra.
  destruct (ilog2_spec x1 H1) as [Hlo1 _]. destruct (ilog2_spec x2 H2) as [_ Hhi2].
  apply Z.lt_succ_r. rewrite <- Z.add_1_r.
  apply (Qpower_lt_compat_l_inv 2); [lra|done].
Qed.

Lemma round_pos_mono (x1 x2 : Q) : 0 < x1 → x1 <= x2 → round_pos x1 <= round_pos x2.
Proof.
  intros H1 H12. assert (0 < x2) as H2 by lra.
  pose proof (ilog2_mono x1 x2 H1 H12) as He.
  destruct (Z_le_lt_eq_dec _ _ He) as [Hlt|Heq].
  - apply Qle_trans with (2 ^ (ilog2 x1 + 1)); [by apply round_pos_range|].
    apply Qle_trans with (2 ^ ilog2 x2); [apply pow2_le; lia|by apply round_pos_range].
  - unfold round_pos. rewrite <- Heq.
    pose proof (pow2_pos (ilog2 x1 - 52)) as Hp.
    apply Qmult_le_r; [done|]. rewrite <- Zle_Qle. apply nearest_even_mono.
    apply Qmult_le_r; [by apply Qinv_lt_0_compat|done].
Qed.

Lemma round_pos_proper (x x' : Q) : 0 < x → x == x' → round_pos x == round_pos x'.
Proof.
  intros Hx Hxx. unfold round_pos.
  assert (ilog2 x' = ilog2 x) as ->.
  { apply ilog2_unique. rewrite <- Hxx. by apply ilog2_spec. }
  rewrite (nearest_even_proper (x / _) (x' / 2 ^ (ilog2 x - 52))); [done|].
  apply Qmult_comp; [exact Hxx|reflexivity].
Qed.

Lemma pow2_minus (a b : Z) : 2 ^ a / 2 ^ b == 2 ^ (a - b).
Proof.
  pose proof (pow2_pos b) as Hb.
  replace a with (a - b + b)%Z at 1 by lia. rewrite pow2_plus.
  generalize dependent (2 ^ b). generalize (2 ^ (a - b)).
  intros u v Hv. field. lra.
Qed.

(** A positive number whose scaled value is an integer is a float. *)
Lemma round_pos_on_grid (x : Q) (z : Z) :
  0 < x → x / 2 ^ (ilog2 x - 52) == inject_Z z → round_pos x == x.
Proof.
  intros Hx Hz. unfold round_pos.
  rewrite (nearest_even_proper _ _ Hz), nearest_even_Z, <- Hz.
  pose proof (pow2_pos (ilog2 x - 52)). field. lra.
Qed.

Lemma round_pos_exact (m e : Z) :
  (0 < m ≤ 2 ^ 53)%Z → round_pos (inject_Z m * 2 ^ e) == inject_Z m * 2 ^ e.
Proof.
  intros [Hm0 Hm]. set (x := inject_Z m * 2 ^ e).
  assert (0 < inject_Z m) as Hm0' by (by rewrite (Zlt_Qlt 0 m) in Hm0).
  assert (0 < x) as Hx by (apply Qmult_lt_0_compat; [done|apply pow2_pos]).
  destruct (ilog2_spec x Hx) as [Hlo Hhi].
  assert (x <= 2 ^ (53 + e)) as Hx53.
  { unfold x. rewrite pow2_plus, <- (pow2_inject 53) by lia.
    apply Qmult_le_r; [apply pow2_pos|by rewrite <- Zle_Qle]. }
  assert (ilog2 x ≤ 53 + e)%Z as Hc.
  { apply (Qpower_le_compat_l_inv 2); [lra|done]. }
  assert (x / 2 ^ (ilog2 x - 52) == inject_Z m * 2 ^ (e - (ilog2 x - 52))) as Hs.
  { rewrite <- (pow2_minus e). unfold x, Qdiv. symmetry. apply Qmult_assoc. }
  destruct (Z_le_lt_eq_dec _ _ Hc) as [Hlt|Heq].
  - apply (round_pos_on_grid x (m * 2 ^ (e - (ilog2 x - 52)))); [done|].
    by rewrite Hs, inject_Z_mult, pow2_inject by lia.
  - apply (round_pos_on_grid x (2 ^ 52)); [done|].
    assert (m = 2 ^ 53)%Z as ->.
    { apply Z.le_antisymm; [done|]. rewrite Zle_Qle.
      apply (Qmult_le_r _ _ (2 ^ e)); [apply pow2_pos|].
      rewrite pow2_inject, <- pow2_plus by lia. fold x. by rewrite <- Heq. }
    rewrite Hs. replace (e - (ilog2 x - 52))%Z with (-1)%Z by lia. reflexivity.
Qed.

Lemma round_pos_idem (x : Q) : 0 < x → round_pos (round_pos x) == round_pos x.
Proof.
  intros Hx. pose proof (significand_range x Hx).
  unfold round_pos at 2 3. apply round_pos_exact. lia.
Qed.

Lemma round_pos_double (x : Q) : 0 < x → round_pos (2 * x) == 2 * round_pos x.
Proof.
  intros Hx. destruct (ilog2_spec x Hx) as [Hlo Hhi]. unfold round_pos.
  assert (ilog2 (2 * x) = ilog2 x + 1)%Z as ->.
  { apply ilog2_unique. rewrite (pow2_plus _ 1) in Hhi. rewrite !(pow2_plus _ 1).
    change (2 ^ 1) with 2 in *. generalize dependent (2 ^ ilog2 x).
    intros u Hlo Hhi. lra. }
  rewrite (nearest_even_proper (2 * x / _) (x / 2 ^ (ilog2 x - 52))).
  - replace (ilog2 x + 1 - 52)%Z with (ilog2 x - 52 + 1)%Z by lia.
    rewrite pow2_plus. change (2 ^ 1) with 2. ring.
  - replace (ilog2 x + 1 - 52)%Z with (ilog2 x - 52 + 1)%Z by lia.
    rewrite pow2_plus. change (2 ^ 1) with 2.
    pose proof (pow2_pos (ilog2 x - 52)). field. lra.
Qed.

Lemma binary53_pos (x : Q) : 0 < x → binary53 x = round_pos x.
Proof. destruct x as [[|p|p] d]; done. Qed.

Lemma binary53_neg (x : Q) : x < 0 → binary53 x = - round_pos (- x).
Proof. destruct x as [[|p|p] d]; done. Qed.

Lemma binary53_zero (x : Q) : x == 0 → binary53 x = 0.
Proof. destruct x as [[|p|p] d]; done. Qed.

Lemma binary53_mono (x y : Q) : x <= y → binary53 x <= binary53 y.
Proof.
  intros Hxy.
  destruct (Q_dec x 0) as [[Hx|Hx]|Hx], (Q_dec y 0) as [[Hy|Hy]|Hy];
    rewrite ?(binary53_pos x), ?(binary53_neg x), ?(binary53_zero x),
            ?(binary53_pos y), ?(binary53_neg y), ?(binary53_zero y) by done;
    try (exfalso; lra).
  - apply Qopp_le_compat. apply round_pos_mono; lra.
  - pose proof (round_pos_pos (- x)). pose proof (round_pos_pos y). lra.
  - pose proof (round_pos_pos (- x)). lra.
  - by apply round_pos_mono.
  - pose proof (round_pos_pos y). lra.
  - lra.
Qed.

Lemma binary53_exact (m e : Z) :
  (Z.abs m ≤ 2 ^ 53)%Z → binary53 (inject_Z m * 2 ^ e) == inject_Z m * 2 ^ e.
Proof.
  intros Hm. pose proof (pow2_pos e) as He.
  destruct (Z.lt_trichotomy m 0) as [Hlt|[->|Hgt]].
  - assert (inject_Z m < 0) as Hm0 by (by rewrite (Zlt_Qlt m 0) in Hlt).
    assert (inject_Z m * 2 ^ e < 0) as Hx.
    { pose proof (Qmult_lt_compat_r _ _ _ He Hm0) as H. by rewrite Qmult_0_l in H. }
    rewrite binary53_neg by done.
    rewrite (round_pos_proper _ (inject_Z (- m) * 2 ^ e)).
    + rewrite round_pos_exact by lia. rewrite inject_Z_opp.
      generalize (2 ^ e). intros u. ring.
    + lra.
    + rewrite inject_Z_opp. generalize (2 ^ e). intros u. ring.
  - rewrite binary53_zero; ring.
  - assert (0 < inject_Z m) as Hm0 by (by rewrite (Zlt_Qlt 0 m) in Hgt).
    rewrite binary53_pos by (by apply Qmult_lt_0_compat).
    apply round_pos_exact. lia.
Qed.

Lemma binary53_idem (x : Q) : binary53 (binary53 x) == binary53 x.
Proof.
  destruct (Q_dec x 0) as [[Hx|Hx]|Hx].
  - assert (0 < - x) as Hx' by lra. pose proof (round_pos_pos _ Hx').
    rewrite (binary53_neg x Hx), binary53_neg by lra.
    rewrite (round_pos_proper (- - round_pos (- x)) (round_pos (- x))); [|lra|ring].
    by rewrite round_pos_idem.
  - pose proof (round_pos_pos _ Hx).
    rewrite (binary53_pos x Hx), binary53_pos by done. by apply round_pos_idem.
  - by rewrite (binary53_zero x Hx).
Qed.

Lemma binary53_double (x : Q) : binary53 (2 * x) == 2 * binary53 x.
Proof.
  destruct (Q_dec x 0) as [[Hx|Hx]|Hx].
  - assert (0 < - x) as Hx' by lra.
    rewrite (binary53_neg x Hx), binary53_neg by lra.
    rewrite (round_pos_proper (- (2 * x)) (2 * - x)); [|lra|ring].
    rewrite round_pos_double by done. ring.
  - rewrite (binary53_pos x Hx), binary53_pos by lra. by apply round_pos_double.
  - rewrite (binary53_zero x Hx), binary53_zero; [ring|]. rewrite Hx. ring.
Qed.

Lemma binary53_rounding : Rounding binary53.
Proof.
  split.
  - apply binary53_mono.
  - apply binary53_exact.
  - apply binary53_idem.
  - apply binary53_double.
Qed.

End Binary53.

Lemma pow_chords_exponentiation : Exponentiation pow_chords.
Proof.
  split. intros y n Hy. unfold pow_chords.
  rewrite (Qfloor_comp _ _ Hy), Qfloor_Z, Hy.
  generalize (2 ^ n)%Q. intros u. ring.
Qed.

(** ** The index into the note table *)

Lemma num_arpeg_notes_in_range_0 : num_arpeg_notes_in_range 0 = Some 17.
Proof. reflexivity. Qed.

Lemma arpeg_index_between (fl : Q → Q) `{!Rounding fl} (t : Q) (sel n : Z) :
  num_arpeg_notes_in_range sel = Some n → 0 ≤ n ≤ 2 ^ 53 →
  (0 <= t <= 1)%Q →
  ∃ i, arpeg_index fl t sel = Some i ∧ 0 ≤ i ≤ n.
Proof.
  intros Hsel Hn [H0 H1]. unfold arpeg_index. rewrite Hsel. simpl.
  eexists; split; [reflexivity|].
  apply int_between, (fl_between fl); [done|].
  assert (0 <= inject_Z n)%Q as Hn0.
  { change 0%Q with (inject_Z 0). rewrite <- Zle_Qle. lia. }
  split.
  - by apply Qmult_le_0_compat.
  - rewrite <- (Qmult_1_l (inject_Z n)) at 2. by apply Qmult_le_compat_r.
Qed.

(** With the tables of [__init__], [freq] raises no [IndexError] on a
    normalized tilt. *)
Lemma freq_returns (fl : Q → Q) `{!Rounding fl} (fpow : Q → Q → Q)
    (t : Q) (sel : Z) (s : TiltingArpeggios) :
  (0 <= t <= 1)%Q → sel = 0 ∨ sel = 1 →
  arpeg_note_indexes s = create_arpeggios (NUM_OCTAVES + 2) →
  is_Some (freq fl fpow t sel s).
Proof.
  intros Ht Hsel Hs. unfold freq. rewrite Hs.
  destruct Hsel as [-> | ->].
  - destruct (arpeg_index_between fl t 0 17) as (i & -> & Hr); [done|lia|done|].
    simpl. rewrite getitem_nonneg by lia.
    match goal with |- context [?table !! Z.to_nat i] =>
      destruct (lookup_lt_is_Some_2 table (Z.to_nat i)) as [note ->]
    end; [simpl; lia|]. by eexists.
  - destruct (arpeg_index_between fl t 1 25) as (i & -> & Hr); [done|lia|done|].
    simpl. rewrite getitem_nonneg by lia.
    match goal with |- context [?table !! Z.to_nat i] =>
      destruct (lookup_lt_is_Some_2 table (Z.to_nat i)) as [note ->]
    end; [simpl; lia|]. by eexists.
Qed.

(** C1. For every normalized tilt in [0, 1] and both arpeggios, the index
    that [freq] computes is an index within the note table that
    [create_arpeggios] built with [NUM_OCTAVES + 2] octaves: looking the
    table up there never fails, and so [freq] returns a frequency. *)
Theorem freq_index_in_range (fl : Q → Q) `{!Rounding fl} (t : Q) (sel : Z) :
  (0 <= t <= 1)%Q → sel = 0 ∨ sel = 1 →
  (∃ table i,
     Py.getitem (create_arpeggios (NUM_OCTAVES + 2)) sel = Some table
     ∧ arpeg_index fl t sel = Some i
     ∧ 0 ≤ i < Py.len table
     ∧ is_Some (Py.getitem table i))
  ∧ (∀ (fpow : Q → Q → Q) (s : TiltingArpeggios),
       arpeg_note_indexes s = create_arpeggios (NUM_OCTAVES + 2) →
       is_Some (freq fl fpow t sel s)).
Proof.
  intros Ht Hsel.
  assert (∃ table i,
     Py.getitem (create_arpeggios (NUM_OCTAVES + 2)) sel = Some table
     ∧ arpeg_index fl t sel = Some i
     ∧ 0 ≤ i < Py.len table
     ∧ is_Some (Py.getitem table i)) as Hidx.
  { destruct Hsel as [-> | ->].
    - destruct (arpeg_index_between fl t 0 17) as (i & Hi & Hr); [done|lia|done|].
      eexists _, i. split; [reflexivity|]. split; [done|].
      split; [unfold Py.len; simpl; lia|].
      rewrite getitem_nonneg by lia. apply lookup_lt_is_Some. simpl. lia.
    - destruct (arpeg_index_between fl t 1 25) as (i & Hi & Hr); [done|lia|done|].
      eexists _, i. split; [reflexivity|]. split; [done|].
      split; [unfold Py.len; simpl; lia|].
      rewrite getitem_nonneg by lia. apply lookup_lt_is_Some. simpl. lia. }
  split; [exact Hidx|].
  intros fpow s Hs. destruct Hidx as (table & i & Htable & Hi & _ & [note Hnote]).
  unfold freq. rewrite Hs, Htable. simpl. rewrite Hi. simpl. rewrite Hnote. simpl.
  by eexists.
Qed.

Lemma freq_index_in_range_witness :
  (∃ table i,
     Py.getitem (create_arpeggios (NUM_OCTAVES + 2)) 1 = Some table
     ∧ arpeg_index binary53 1 1 = Some i
     ∧ 0 ≤ i < Py.len table
     ∧ is_Some (Py.getitem table i))
  ∧ (∀ (fpow : Q → Q → Q) (s : TiltingArpeggios),
       arpeg_note_indexes s = create_arpeggios (NUM_OCTAVES + 2) →
       is_Some (freq binary53 fpow 1 1 s)).
Proof.
  apply (freq_index_in_range binary53 (Rounding0 := binary53_rounding) 1 1).
  - split; discriminate.
  - right; reflexivity.
Defined.

(** C2. For the dominant-seventh arpeggio, which has four notes, and
    [NUM_OCTAVES = 4], [freq] has [4 * 4 + 1 = 17] notes in range, and the
    truncated product [int(tilt * 17)] is 0 at tilt 0.0 and 17 at tilt 1.0. *)
Theorem tilt_boundary (fl : Q → Q) `{!Rounding fl} :
  Py.getitem ARPEGGIOS 0 = Some [0; 4; 7; 10]
  ∧ num_arpeg_notes_in_range 0 = Some (4 * 4 + 1)
  ∧ 4 * 4 + 1 = 17
  ∧ arpeg_index fl 0 0 = Some 0
  ∧ arpeg_index fl 1 0 = Some 17.
Proof.
  repeat split; unfold arpeg_index; rewrite num_arpeg_notes_in_range_0; simpl; f_equal.
  - rewrite <- (int_Z 0). apply int_proper. unfold fmul.
    apply Qeq_trans with (fl (inject_Z 0)); [apply (fl_proper fl); reflexivity|].
    apply (fl_Z fl). simpl. lia.
  - rewrite <- (int_Z 17). apply int_proper. unfold fmul.
    apply Qeq_trans with (fl (inject_Z 17)); [apply (fl_proper fl); reflexivity|].
    apply (fl_Z fl). simpl. lia.
Qed.

Lemma tilt_boundary_witness :
  Py.getitem ARPEGGIOS 0 = Some [0; 4; 7; 10]
  ∧ num_arpeg_notes_in_range 0 = Some (4 * 4 + 1)
  ∧ 4 * 4 + 1 = 17
  ∧ arpeg_index binary53 0 0 = Some 0
  ∧ arpeg_index binary53 1 0 = Some 17.
Proof.
  apply (tilt_boundary binary53 (Rounding0 := binary53_rounding)).
Defined.

Lemma tilt_range (fl : Q → Q) `{!Rounding fl} (r : Reading) :
  (0 <= tilt fl r <= 1)%Q.
Proof.
  unfold tilt, fdiv. set (g := fl (981 # 100)).
  set (c := Qmin (Qmax 0 (- snd (fst (acceleration r)))) g).
  assert (9 <= g)%Q as Hg9.
  { apply Qle_trans with (fl (inject_Z 9)); [|apply fl_mono; discriminate].
    apply Qle_lteq. right. symmetry. apply (fl_Z fl). simpl. lia. }
  assert (0 < g)%Q as Hg by (eapply Qlt_le_trans; [|exact Hg9]; reflexivity).
  assert (0 <= c)%Q as Hc0.
  { apply Q.min_glb; [apply Q.le_max_l|by apply Qlt_le_weak]. }
  assert (c <= g)%Q as Hcg by apply Q.le_min_r.
  apply (fl_between fl _ 1); [lia|]. split.
  - apply Qle_shift_div_l; [done|]. by rewrite Qmult_0_l.
  - apply Qle_shift_div_r; [done|]. by rewrite Qmult_1_l.
Qed.

(** ** Frequencies *)

Section Frequencies.

Context (fl : Q → Q) (fpow : Q → Q → Q) `{!Rounding fl} `{!Exponentiation fpow}.

Lemma STARTING_NOTE_double : (STARTING_NOTE fl == 2 * C1_FREQ fl)%Q.
Proof.
  unfold STARTING_NOTE, fmul.
  apply Qeq_trans with (fl (2 * C1_FREQ fl)); [apply (fl_proper fl); ring|].
  rewrite fl_double. unfold C1_FREQ. by rewrite fl_idem.
Qed.

Lemma C1_FREQ_bounds : (2093 # 64 <= C1_FREQ fl <= 133953 # 4096)%Q.
Proof.
  unfold C1_FREQ. split.
  - apply Qle_trans with (fl (inject_Z 2093 * 2 ^ (-6))); [|apply fl_mono; discriminate].
    apply Qle_lteq. right. rewrite fl_exact by (simpl; lia). reflexivity.
  - apply Qle_trans with (fl (inject_Z 133953 * 2 ^ (-12))); [apply fl_mono; discriminate|].
    apply Qle_lteq. right. rewrite fl_exact by (simpl; lia). reflexivity.
Qed.

Lemma fl_STARTING_NOTE : (fl (STARTING_NOTE fl) == STARTING_NOTE fl)%Q.
Proof. unfold STARTING_NOTE, fmul. apply fl_idem. Qed.

(** [k] octaves up multiply the base frequency by [2 ^ k]. *)
Lemma calc_freq_octaves (k : Z) :
  Z.abs k ≤ 1000 → (calc_freq fl fpow (12 * k) == 2 ^ k * STARTING_NOTE fl)%Q.
Proof.
  intros Hk. unfold calc_freq, fmul, fdiv.
  rewrite (pow_two_int (pow := fpow) (fl (inject_Z (12 * k) / inject_Z HS_OCT)) k).
  - apply Qeq_trans with (fl (2 ^ k * STARTING_NOTE fl));
      [apply (fl_proper fl); apply Qmult_comm|].
    by rewrite (fl_scale fl), fl_STARTING_NOTE.
  - apply Qeq_trans with (fl (inject_Z k)); [|apply (fl_Z fl); lia].
    apply (fl_proper fl). rewrite inject_Z_mult. unfold HS_OCT. field.
Qed.

Lemma calc_freq_0 : (calc_freq fl fpow 0 == STARTING_NOTE fl)%Q.
Proof.
  rewrite (calc_freq_octaves 0) by (simpl; lia). simpl. ring.
Qed.

Lemma calc_freq_12 : (calc_freq fl fpow 12 == 2 * STARTING_NOTE fl)%Q.
Proof.
  rewrite (calc_freq_octaves 1) by (simpl; lia). reflexivity.
Qed.

End Frequencies.

(** C6. [calc_freq(i)] is the base frequency times two to the power
    [i / 12], where the base frequency [STARTING_NOTE] is twice [C1_FREQ],
    about 65.406 Hz: [k] octaves up, the frequency is that base times
    [2 ^ k]; and in particular [calc_freq(12) == 2 * calc_freq(0)], one
    octave up doubles the frequency exactly. *)
Theorem calc_freq_octave (fl : Q → Q) (fpow : Q → Q → Q)
    `{!Rounding fl} `{!Exponentiation fpow} :
  (∀ i : Z,
     calc_freq fl fpow i
     = fmul fl (STARTING_NOTE fl) (fpow 2 (fdiv fl (inject_Z i) 12))%Q)
  ∧ (STARTING_NOTE fl == 2 * C1_FREQ fl)%Q
  ∧ (65406 # 1000 <= STARTING_NOTE fl <= 65407 # 1000)%Q
  ∧ (∀ k : Z, Z.abs k ≤ 1000 →
       calc_freq fl fpow (12 * k) == 2 ^ k * STARTING_NOTE fl)%Q
  ∧ (calc_freq fl fpow 12 == fmul fl 2 (calc_freq fl fpow 0))%Q.
Proof.
  split; [reflexivity|]. split; [apply STARTING_NOTE_double; done|].
  split; [|split; [apply calc_freq_octaves; done|]].
  - rewrite (STARTING_NOTE_double fl).
    destruct (C1_FREQ_bounds fl) as [Hlo Hhi]. split.
    + apply Qle_trans with (2 * (2093 # 64))%Q; [discriminate|].
      apply Qmult_le_l; [reflexivity|done].
    + apply Qle_trans with (2 * (133953 # 4096))%Q; [|discriminate].
      apply Qmult_le_l; [reflexivity|done].
  - rewrite (calc_freq_12 fl fpow). unfold fmul. rewrite fl_double.
    rewrite (fl_proper fl _ _ (calc_freq_0 fl fpow)).
    by rewrite fl_STARTING_NOTE.
Qed.

Lemma calc_freq_octave_witness :
  (∀ i : Z,
     calc_freq binary53 pow_chords i
     = fmul binary53 (STARTING_NOTE binary53) (pow_chords 2 (fdiv binary53 (inject_Z i) 12))%Q)
  ∧ (STARTING_NOTE binary53 == 2 * C1_FREQ binary53)%Q
  ∧ (65406 # 1000 <= STARTING_NOTE binary53 <= 65407 # 1000)%Q
  ∧ (∀ k : Z, Z.abs k ≤ 1000 →
       calc_freq binary53 pow_chords (12 * k) == 2 ^ k * STARTING_NOTE binary53)%Q
  ∧ (calc_freq binary53 pow_chords 12 == fmul binary53 2 (calc_freq binary53 pow_chords 0))%Q.
Proof.
  apply (calc_freq_octave binary53 pow_chords
           (Rounding0 := binary53_rounding)
           (Exponentiation0 := pow_chords_exponentiation)).
Defined.

(** ** Button repeat limit *)

Lemma pressed_accepts (fl : Q → Q) (index : Z) (r : Reading) (t : TiltingArpeggios) :
  fst (pressed fl index r t) = true
  ↔ raw_button index r = true ∧ (next_press_allowed_at t <= monotonic r)%Q.
Proof.
  unfold pressed. rewrite <- Qle_bool_iff.
  destruct (raw_button index r); [|simpl; intuition discriminate].
  destruct (Qle_bool (next_press_allowed_at t) (monotonic r)); simpl; intuition discriminate.
Qed.

Lemma pressed_state (fl : Q → Q) (index : Z) (r : Reading) (t : TiltingArpeggios) :
  snd (pressed fl index r t)
  = if fst (pressed fl index r t)
    then set_next_press_allowed_at
           (fadd fl (monotonic r) BUTTON_REPEAT_AFTER_SECONDS) t
    else t.
Proof.
  unfold pressed. destruct (raw_button index r); [|done].
  by destruct (Qle_bool (next_press_allowed_at t) (monotonic r)).
Qed.

Lemma pressed_rejects (fl : Q → Q) (index : Z) (r : Reading) (t : TiltingArpeggios) :
  (monotonic r < next_press_allowed_at t)%Q → fst (pressed fl index r t) = false.
Proof.
  intros Hlt. apply not_true_is_false. rewrite pressed_accepts.
  intros [_ Hle]. by apply Qle_not_lt in Hle.
Qed.

(** The claim C7 as worded, with the limit counted in seconds since the
    press, fails for a press at the clock 0.1 and a second call at the
    clock 0.35: the two floats are less than 0.25 apart, and the second call
    is accepted, because the deadline is the float sum [0.1 + 0.25], which
    rounds down to the float 0.35. *)
Lemma pressed_accepts_within_quarter_second :
  fst (pressed binary53 0 (board_with true false (binary53 (1 # 10)))
         (self fresh_state)) = true
  ∧ (binary53 (35 # 100) - binary53 (1 # 10) < 1 # 4)%Q
  ∧ fst (pressed binary53 0 (board_with true false (binary53 (35 # 100)))
           (snd (pressed binary53 0 (board_with true false (binary53 (1 # 10)))
                   (self fresh_state)))) = true.
Proof. vm_compute. repeat split. Qed.

(** C7, amended. [pressed] accepts a press, returning [True], only if the
    level of the button is high and the monotonic time has reached the one
    deadline shared by the two buttons; accepting moves that deadline to
    the float sum of the present time and 0.25; otherwise it returns
    [False] and changes nothing, even with the button held.  So a second
    call, for either button and with the button held, returns [False]
    before the deadline set by an accepted press and [True] from the
    deadline on.  Counted in seconds since the press: 0.25 s or more after
    it the second call returns [True]; less than 0.25 s after it the second
    call returns [False], unless the sum was rounded down and the clock
    reads exactly the rounded deadline; when the sum is a float the limit is
    0.25 s exactly. *)
Theorem pressed_repeat_limit (fl : Q → Q) (index : Z) (r : Reading) (t : TiltingArpeggios) :
  (fst (pressed fl index r t) = true
   ↔ raw_button index r = true ∧ (next_press_allowed_at t <= monotonic r)%Q)
  ∧ snd (pressed fl index r t)
    = (if fst (pressed fl index r t)
       then set_next_press_allowed_at (fadd fl (monotonic r) (1 # 4)) t
       else t)
  ∧ (∀ (index' : Z) (r' : Reading),
       fst (pressed fl index r t) = true → raw_button index' r' = true →
       let t' := snd (pressed fl index r t) in
       let deadline := fadd fl (monotonic r) (1 # 4) in
       ((monotonic r' < deadline)%Q → pressed fl index' r' t' = (false, t'))
       ∧ ((deadline <= monotonic r')%Q → fst (pressed fl index' r' t') = true)
       ∧ ((deadline == monotonic r + (1 # 4))%Q →
          ((monotonic r' - monotonic r < 1 # 4)%Q →
           pressed fl index' r' t' = (false, t'))
          ∧ ((1 # 4 <= monotonic r' - monotonic r)%Q →
             fst (pressed fl index' r' t') = true))
       ∧ (Rounding fl → (fl (monotonic r') == monotonic r')%Q →
          ((1 # 4 <= monotonic r' - monotonic r)%Q →
           fst (pressed fl index' r' t') = true)
          ∧ ((monotonic r' - monotonic r < 1 # 4)%Q →
             ¬ (monotonic r' == deadline)%Q →
             pressed fl index' r' t' = (false, t')))).
Proof.
  split; [apply pressed_accepts|]. split; [apply pressed_state|].
  intros index' r' Hacc Hraw t' deadline.
  assert (next_press_allowed_at t' = deadline) as Hdl.
  { unfold t'. rewrite pressed_state, Hacc. reflexivity. }
  assert (∀ x, (monotonic r' < next_press_allowed_at x)%Q →
               pressed fl index' r' x = (false, x)) as Hrej.
  { intros x Hlt. rewrite (surjective_pairing (pressed fl index' r' x)).
    rewrite pressed_state, (pressed_rejects fl index' r' x Hlt). reflexivity. }
  split; [|split; [|split]].
  - intros Hlt. apply Hrej. by rewrite Hdl.
  - intros Hle. apply pressed_accepts. by rewrite Hdl.
  - intros Hexact. split.
    + intros Hlt. apply Hrej. rewrite Hdl, Hexact. lra.
    + intros Hle. apply pressed_accepts. split; [done|]. rewrite Hdl, Hexact. lra.
  - intros Hfl Hfloat. split.
    + intros Hle. apply pressed_accepts. split; [done|]. rewrite Hdl.
      apply Qle_trans with (fl (monotonic r')); [|by apply Qle_lteq; right].
      unfold deadline, fadd. apply fl_mono. lra.
    + intros Hlt Hne. apply Hrej. rewrite Hdl.
      assert (monotonic r' <= deadline)%Q as Hle.
      { apply Qle_trans with (fl (monotonic r')).
        - apply Qle_lteq. right. by symmetry.
        - unfold deadline, fadd. apply fl_mono. lra. }
      apply Qle_lteq in Hle as [?|?]; done.
Qed.

Lemma pressed_repeat_limit_witness :
  let t' := snd (pressed binary53 0 (board_with true false 1) (self fresh_state)) in
  let u' := snd (pressed binary53 0 (board_with true false (binary53 (1 # 10)))
                   (self fresh_state)) in
  pressed binary53 1 (board_with false true (9 # 8)) t' = (false, t')
  ∧ fst (pressed binary53 1 (board_with false true (5 # 4)) t') = true
  ∧ pressed binary53 0 (board_with true false (9 # 8)) t' = (false, t')
  ∧ fst (pressed binary53 0 (board_with true false (5 # 4)) t') = true
  ∧ fst (pressed binary53 1 (board_with false true (binary53 (36 # 100))) u') = true
  ∧ pressed binary53 1 (board_with false true (binary53 (34 # 100))) u' = (false, u').
Proof.
  intros t' u'.
  pose proof (pressed_repeat_limit binary53 0 (board_with true false 1) (self fresh_state))
    as (_ & _ & H).
  pose proof (pressed_repeat_limit binary53 0
                (board_with true false (binary53 (1 # 10))) (self fresh_state))
    as (_ & _ & H').
  assert (binary53 (1 + (1 # 4)) == 1 + (1 # 4))%Q as Hexact by reflexivity.
  assert (fst (pressed binary53 0 (board_with true false (binary53 (1 # 10)))
                 (self fresh_state)) = true) as Hacc by (vm_compute; reflexivity).
  split; [|split; [|split; [|split; [|split]]]].
  - destruct (H 1 (board_with false true (9 # 8)) eq_refl eq_refl)
      as (_ & _ & Hsum & _).
    apply (Hsum Hexact). reflexivity.
  - destruct (H 1 (board_with false true (5 # 4)) eq_refl eq_refl)
      as (_ & _ & Hsum & _).
    apply (Hsum Hexact). discriminate.
  - destruct (H 0 (board_with true false (9 # 8)) eq_refl eq_refl)
      as (_ & _ & Hsum & _).
    apply (Hsum Hexact). reflexivity.
  - destruct (H 0 (board_with true false (5 # 4)) eq_refl eq_refl)
      as (_ & _ & Hsum & _).
    apply (Hsum Hexact). discriminate.
  - destruct (H' 1 (board_with false true (binary53 (36 # 100))) Hacc eq_refl)
      as (_ & _ & _ & Hfloat).
    apply Hfloat; [apply binary53_rounding|vm_compute; reflexivity|].
    vm_compute. discriminate.
  - destruct (H' 1 (board_with false true (binary53 (34 # 100))) Hacc eq_refl)
      as (_ & _ & _ & Hfloat).
    apply Hfloat; [apply binary53_rounding|vm_compute; reflexivity| |].
    + vm_compute. reflexivity.
    + vm_compute. discriminate.
Defined.

(** ** Tone changes *)

Section ToneChanges.

Context (fl : Q → Q) (fpow : Q → Q → Q).

Lemma start_tone_plays (f : Q) (c : CustomizedExpress) :
  (length (_audio_out (start_tone fl f c)) ≤ length (_audio_out c) + 1)%nat.
Proof.
  unfold start_tone. destruct (_ && _); simpl; lia.
Qed.

(** The buttons touch neither [last_freq] nor the audio output. *)
Lemma process_button_keeps (index direction : Z) (r : Reading) (s : State) :
  last_freq (self (process_button fl index direction r s)) = last_freq (self s)
  ∧ _audio_out (cpx (process_button fl index direction r s)) = _audio_out (cpx s).
Proof.
  unfold process_button, pressed.
  destruct (raw_button index r); [|done].
  by destruct (Qle_bool _ _).
Qed.

Lemma after_buttons_keeps (u : Turn) (s : State) :
  last_freq (self (after_buttons fl u s)) = last_freq (self s)
  ∧ _audio_out (cpx (after_buttons fl u s)) = _audio_out (cpx s).
Proof.
  unfold after_buttons, process_button_presses.
  destruct (process_button_keeps 1 (-1) (at_button_b u)
              (process_button fl 0 1 (at_button_a u) s)) as [-> ->].
  apply process_button_keeps.
Qed.

(** The two outcomes of [change_tone_if_needed]. *)
Lemma change_tone_if_needed_cases (r : Reading) (s s' : State) :
  change_tone_if_needed fl fpow r s = Some s' →
  ∃ f, target_freq fl fpow r s = Some f
       ∧ ((freq_differs f (last_freq (self s)) = true
           ∧ s' = {| self := set_last_freq (Some f) (self s);
                     cpx := start_tone fl f (cpx s) |})
          ∨ (freq_differs f (last_freq (self s)) = false ∧ s' = s)).
Proof.
  unfold change_tone_if_needed, target_freq.
  destruct (freq fl fpow (tilt fl r) (arpeggio_index r) (self s)) as [f|]; [|done].
  simpl. intros H. exists f. split; [done|].
  destruct (freq_differs f (last_freq (self s))); injection H as <-; auto.
Qed.

Lemma freq_differs_false (f : Q) (last : option Q) :
  freq_differs f last = false ↔ ∃ l, last = Some l ∧ (f == l)%Q.
Proof.
  destruct last as [l|]; simpl.
  - rewrite negb_false_iff, Qeq_bool_iff. split; [eauto|].
    by intros (l' & [= <-] & H).
  - split; [done|]. by intros (l & ? & _).
Qed.

(** After an evaluation, [last_freq] holds the frequency just obtained. *)
Lemma change_tone_if_needed_last (r : Reading) (s s' : State) (f : Q) :
  change_tone_if_needed fl fpow r s = Some s' →
  target_freq fl fpow r s = Some f →
  ∃ l, last_freq (self s') = Some l ∧ (f == l)%Q.
Proof.
  intros H Hf. apply change_tone_if_needed_cases in H as (f' & Hf' & H).
  rewrite Hf in Hf'. injection Hf' as <-.
  destruct H as [[_ ->]|[Hd ->]].
  - exists f. by split.
  - by apply freq_differs_false.
Qed.

Lemma change_tone_if_needed_plays (r : Reading) (s s' : State) :
  change_tone_if_needed fl fpow r s = Some s' → (plays s' ≤ plays s + 1)%nat.
Proof.
  intros H. apply change_tone_if_needed_cases in H as (f & _ & [[_ ->]|[_ ->]]).
  - apply start_tone_plays.
  - lia.
Qed.

Lemma change_tone_if_needed_same (r : Reading) (s : State) (f l : Q) :
  target_freq fl fpow r s = Some f → last_freq (self s) = Some l → (f == l)%Q →
  change_tone_if_needed fl fpow r s = Some s.
Proof.
  unfold target_freq, change_tone_if_needed. intros -> Hl Hfl. simpl.
  rewrite (proj2 (freq_differs_false f (last_freq (self s)))); [done|].
  by exists l.
Qed.

(** A turn of the loop: the buttons, then the evaluation if it is due. *)
Lemma run_turn_unfold (u : Turn) (s : State) :
  run_turn fl fpow u s
  = if evaluates fl u s
    then change_tone_if_needed fl fpow (at_tone u)
           (with_self (set_next_freq_change_allowed_at
                         (fadd fl (at_set u) (MIN_NOTE_PLAY_SECONDS fl))
                         (self (after_buttons fl u s)))
                      (after_buttons fl u s))
    else Some (after_buttons fl u s).
Proof. reflexivity. Qed.

Lemma target_freq_deadline (r : Reading) (d : Q) (s : State) :
  target_freq fl fpow r (with_self (set_next_freq_change_allowed_at d (self s)) s)
  = target_freq fl fpow r s.
Proof. reflexivity. Qed.

Lemma run_quiet (us : list Turn) (s s' : State) :
  quiet fl us s = true → run fl fpow us s = Some s' →
  last_freq (self s') = last_freq (self s)
  ∧ _audio_out (cpx s') = _audio_out (cpx s).
Proof.
  revert s. induction us as [|u us IH]; intros s Hq Hrun; simpl in *.
  - by injection Hrun as <-.
  - apply andb_true_iff in Hq as [Hu Hq]. apply negb_true_iff in Hu.
    rewrite run_turn_unfold, Hu in Hrun. simpl in Hrun.
    destruct (IH _ Hq Hrun) as [-> ->]. apply after_buttons_keeps.
Qed.

(** A turn that evaluates the frequency and finds it equal to [last_freq]
    changes nothing but the buttons' effects and the deadline. *)
Lemma run_turn_same (u : Turn) (s s' : State) (f l : Q) :
  evaluates fl u s = true → turn_freq fl fpow u s = Some f →
  last_freq (self s) = Some l → (f == l)%Q →
  run_turn fl fpow u s = Some s' →
  last_freq (self s') = last_freq (self s)
  ∧ _audio_out (cpx s') = _audio_out (cpx s).
Proof.
  intros He Hf Hl Hfl Hrun. rewrite run_turn_unfold, He in Hrun.
  unfold turn_freq in Hf.
  destruct (after_buttons_keeps u s) as [Hlast Hout].
  erewrite change_tone_if_needed_same in Hrun; [| |simpl; by rewrite Hlast|done];
    [|by rewrite target_freq_deadline].
  injection Hrun as <-. simpl. done.
Qed.

Lemma run_turn_last (u : Turn) (s s' : State) (f : Q) :
  evaluates fl u s = true → turn_freq fl fpow u s = Some f →
  run_turn fl fpow u s = Some s' →
  (∃ l, last_freq (self s') = Some l ∧ (f == l)%Q)
  ∧ (plays s' ≤ plays s + 1)%nat.
Proof.
  intros He Hf Hrun. rewrite run_turn_unfold, He in Hrun. split.
  - eapply change_tone_if_needed_last; [exact Hrun|].
    by rewrite target_freq_deadline.
  - apply change_tone_if_needed_plays in Hrun.
    unfold plays in *. simpl in Hrun.
    destruct (after_buttons_keeps u s) as [_ Hout]. by rewrite Hout in Hrun.
Qed.

End ToneChanges.

(** C8. In [change_tone_if_needed], a frequency equal to [last_freq]
    leaves the whole state as it is: [last_freq] is not assigned and nothing
    is played.  Hence, when two consecutive evaluations of the throttled
    loop obtain the same frequency, at most one [play] call is made across
    the two.  And a turn of the loop changes [last_freq] only in the tone
    change, when the frequency differs from it. *)
Theorem no_retrigger (fl : Q → Q) (fpow : Q → Q → Q) :
  (∀ (r : Reading) (s : State) (f l : Q),
     target_freq fl fpow r s = Some f → last_freq (self s) = Some l → (f == l)%Q →
     change_tone_if_needed fl fpow r s = Some s)
  ∧ (∀ (u1 u2 : Turn) (between : list Turn) (s0 s1 s2 s3 : State) (f1 f2 : Q),
       evaluates fl u1 s0 = true → turn_freq fl fpow u1 s0 = Some f1 →
       run_turn fl fpow u1 s0 = Some s1 →
       quiet fl between s1 = true → run fl fpow between s1 = Some s2 →
       evaluates fl u2 s2 = true → turn_freq fl fpow u2 s2 = Some f2 →
       run_turn fl fpow u2 s2 = Some s3 →
       (f1 == f2)%Q →
       (plays s3 ≤ plays s0 + 1)%nat ∧ plays s3 = plays s1)
  ∧ (∀ (u : Turn) (s s' : State),
       run_turn fl fpow u s = Some s' →
       last_freq (self s') ≠ last_freq (self s) →
       evaluates fl u s = true
       ∧ ∃ f, turn_freq fl fpow u s = Some f
              ∧ freq_differs f (last_freq (self s)) = true
              ∧ last_freq (self s') = Some f).
Proof.
  split; [|split].
  - intros r s f l. apply change_tone_if_needed_same.
  - intros u1 u2 between s0 s1 s2 s3 f1 f2 He1 Hf1 Hrun1 Hq Hrun He2 Hf2 Hrun2 Hf.
    destruct (run_turn_last fl fpow u1 s0 s1 f1 He1 Hf1 Hrun1) as [(l & Hl & Hfl) Hp].
    destruct (run_quiet fl fpow between s1 s2 Hq Hrun) as [Hlast Hout].
    rewrite Hl in Hlast.
    destruct (run_turn_same fl fpow u2 s2 s3 f2 l He2 Hf2 Hlast) as [_ Hout3];
      [by rewrite <- Hf|done|].
    unfold plays in *. rewrite Hout3, Hout. split; [exact Hp|reflexivity].
  - intros u s s' Hrun Hne. rewrite run_turn_unfold in Hrun.
    destruct (after_buttons_keeps fl u s) as [Hlast _].
    destruct (evaluates fl u s).
    + split; [done|].
      apply change_tone_if_needed_cases in Hrun as (f & Hf & [[Hd ->]|[_ ->]]).
      * exists f. rewrite target_freq_deadline in Hf. simpl in Hd.
        rewrite Hlast in Hd. done.
      * simpl in Hne. by rewrite Hlast in Hne.
    + injection Hrun as <-. by rewrite Hlast in Hne.
Qed.

Lemma no_retrigger_witness :
  ∃ s1 s2 s3 : State,
    run_turn binary53 pow_chords (turn_at 0) fresh_state = Some s1
    ∧ run binary53 pow_chords [turn_at (1 # 8)] s1 = Some s2
    ∧ run_turn binary53 pow_chords (turn_at (1 # 4)) s2 = Some s3
    ∧ (plays s3 ≤ plays fresh_state + 1)%nat ∧ plays s3 = plays s1.
Proof.
  eexists _, _, _.
  split; [vm_compute; reflexivity|]. split; [vm_compute; reflexivity|].
  split; [vm_compute; reflexivity|].
  pose proof (no_retrigger binary53 pow_chords) as (_ & H & _).
  eapply (H (turn_at 0) (turn_at (1 # 4)) [turn_at (1 # 8)] fresh_state);
    try (vm_compute; reflexivity).
Defined.

(** ** Pixel display *)

Lemma pixel_index_range (circle_pos : Z) : 0 ≤ pixel_index circle_pos < 10.
Proof. unfold pixel_index, Py.mod_. apply Z.mod_pos_bound. lia. Qed.

(** The claim C9 as worded, with the position taken modulo 12, fails at
    [circle_pos = 5]: the claim names pixel 11, which the ring of ten does
    not have, and [update_pixel] lights pixel 9. *)
Lemma update_pixel_not_mod_12 :
  pixel_index 5 ≠ (4 - 5) mod 12
  ∧ (4 - 5) mod 12 = 11
  ∧ pixels (update_pixel 5 fresh_board) !! 11%nat = None
  ∧ pixels (update_pixel 5 fresh_board) !! 9%nat = Some (0, 255, 0).
Proof. repeat split. discriminate. Qed.

(** C9, amended. For every [circle_pos] from 0 to 11, [update_pixel]
    darkens the ring and lights the pixel of index [(4 - circle_pos) mod 10],
    in the first colour when [circle_pos <= 9] and in the second otherwise;
    nothing else of the board changes. *)
Theorem update_pixel_display (circle_pos : Z) (c : CustomizedExpress) :
  0 ≤ circle_pos ≤ 11 → length (pixels c) = 10%nat →
  pixel_index circle_pos = (4 - circle_pos) mod 10
  ∧ pixel_color circle_pos
    = (if decide (circle_pos ≤ 9) then (0, 255, 0) else (255, 255, 0))
  ∧ (∀ i : nat, (i < 10)%nat →
       pixels (update_pixel circle_pos c) !! i
       = Some (if decide (Z.of_nat i = (4 - circle_pos) mod 10)
               then pixel_color circle_pos else (0, 0, 0)))
  ∧ length (pixels (update_pixel circle_pos c)) = 10%nat
  ∧ update_pixel circle_pos c = set_pixels (pixels (update_pixel circle_pos c)) c.
Proof.
  intros Hpos Hlen. split; [reflexivity|]. split; [|split; [|split]].
  - unfold pixel_color. destruct (Z.leb_spec circle_pos 9), (decide (circle_pos ≤ 9));
      done || lia.
  - intros i Hi. unfold update_pixel. simpl. rewrite Hlen.
    pose proof (pixel_index_range circle_pos) as Hr.
    change ((4 - circle_pos) mod 10) with (pixel_index circle_pos).
    destruct (decide (Z.of_nat i = pixel_index circle_pos)) as [Heq|Hne].
    + replace (Z.to_nat (pixel_index circle_pos)) with i by lia.
      apply list_lookup_insert_eq. rewrite length_replicate. lia.
    + rewrite list_lookup_insert_ne by lia.
      by apply lookup_replicate_2.
  - unfold update_pixel. simpl. by rewrite length_insert, length_replicate.
  - reflexivity.
Qed.

Lemma update_pixel_display_witness :
  pixel_index 5 = (4 - 5) mod 10
  ∧ pixel_color 5 = (if decide (5 ≤ 9) then (0, 255, 0) else (255, 255, 0))
  ∧ (∀ i : nat, (i < 10)%nat →
       pixels (update_pixel 5 fresh_board) !! i
       = Some (if decide (Z.of_nat i = (4 - 5) mod 10)
               then pixel_color 5 else (0, 0, 0)))
  ∧ length (pixels (update_pixel 5 fresh_board)) = 10%nat
  ∧ update_pixel 5 fresh_board = set_pixels (pixels (update_pixel 5 fresh_board)) fresh_board.
Proof.
  apply (update_pixel_display 5 fresh_board); [lia|reflexivity].
Defined.

(** ** Starting a tone *)

Lemma int_floor (x : Q) :
  (0 <= 2 * x)%Q → (inject_Z (Py.int (2 * x)) <= 2 * x < inject_Z (Py.int (2 * x)) + 1)%Q.
Proof.
  intros H0. unfold Py.int. rewrite (proj2 (Qle_bool_iff _ _) H0).
  split; [apply Qfloor_le|].
  pose proof (Qlt_floor (2 * x)) as H. by rewrite inject_Z_plus in H.
Qed.

(** C10. [start_tone] does nothing, neither to the state nor to the audio
    output, when the frequency is above 20000 Hz or the volume is 0.
    Otherwise, the volume being one of the interface (not negative), it
    plays the sample in a loop, in place of whatever was playing, and leaves
    the speaker enabled; the sample has two values and its rate is twice
    the frequency, truncated to an integer, so the tone has that frequency
    to within half a hertz. *)
Theorem start_tone_guard (fl : Q → Q) (frequency : Q) (c : CustomizedExpress) :
  _highest_supported_frequency c = 20000 →
  ((20000 < frequency ∨ _volume c == 0)%Q → start_tone fl frequency c = c)
  ∧ ((0 <= _volume c)%Q → ¬ (20000 < frequency ∨ _volume c == 0)%Q →
     let sample :=
       {| buffer := buffer (_audiocore_raw_sample c);
          sample_rate := Py.int (fmul fl 2 frequency) |} in
     start_tone fl frequency c
     = {| pixels := pixels c; brightness := brightness c;
          _highest_supported_frequency := _highest_supported_frequency c;
          _speaker_enable := true; _volume := _volume c;
          _audio_out := {| played := sample; loop := true |} :: _audio_out c;
          _audiocore_raw_sample := sample |})
  ∧ (Rounding fl → (fl frequency == frequency)%Q → (0 <= frequency)%Q →
     let rate := Py.int (fmul fl 2 frequency) in
     (inject_Z rate <= 2 * frequency < inject_Z rate + 1)%Q).
Proof.
  intros Hmax. unfold start_tone.
  replace (inject_Z (_highest_supported_frequency c)) with (inject_Z 20000)
    by (by rewrite Hmax).
  split; [|split].
  - intros [Hf|Hv].
    + assert (Qle_bool frequency (inject_Z 20000) = false) as ->; [|done].
      apply not_true_is_false. rewrite Qle_bool_iff. by apply Qlt_not_le.
    + assert (Qle_bool (_volume c) 0 = true) as ->; [|by rewrite andb_false_r].
      apply Qle_bool_iff. rewrite Hv. apply Qle_refl.
  - intros Hv0 Hnot. cbv zeta.
    assert (Qle_bool frequency (inject_Z 20000) = true) as ->.
    { apply Qle_bool_iff. apply Qnot_lt_le. tauto. }
    assert (Qle_bool (_volume c) 0 = false) as ->; [|reflexivity].
    apply not_true_is_false. rewrite Qle_bool_iff. intros Hle.
    apply Hnot. right. by apply Qle_antisym.
  - intros Hfl Hfloat Hf0. cbv zeta.
    rewrite (int_proper _ (2 * frequency)).
    + apply int_floor. apply Qmult_le_0_compat; [discriminate|done].
    + unfold fmul. by rewrite fl_double, Hfloat.
Qed.

Lemma start_tone_guard_witness :
  start_tone binary53 20001 fresh_board = fresh_board
  ∧ start_tone binary53 440 (set_volume_attr 0 fresh_board) = set_volume_attr 0 fresh_board
  ∧ _audio_out (start_tone binary53 440 fresh_board)
    = [{| played := {| buffer := [0; 32767]; sample_rate := 880 |}; loop := true |}]
  ∧ (inject_Z (Py.int (fmul binary53 2 (1761 # 4))) <= 2 * (1761 # 4)
     < inject_Z (Py.int (fmul binary53 2 (1761 # 4))) + 1)%Q.
Proof.
  split; [|split; [|split]].
  - apply (start_tone_guard binary53 20001 fresh_board); [reflexivity|].
    left. reflexivity.
  - apply (start_tone_guard binary53 440 (set_volume_attr 0 fresh_board)); [reflexivity|].
    right. reflexivity.
  - destruct (start_tone_guard binary53 440 fresh_board eq_refl) as (_ & H & _).
    rewrite H; [reflexivity|discriminate|].
    intros [H'|H']; [|discriminate H'].
    apply Qlt_not_le in H'. apply H'. discriminate.
  - destruct (start_tone_guard binary53 (1761 # 4) fresh_board eq_refl) as (_ & _ & H).
    apply H; [apply binary53_rounding|reflexivity|discriminate].
Defined.

(** ** The program runs *)

Section Runs.

Context (fl : Q → Q) (fpow : Q → Q → Q) `{!Rounding fl}.

Lemma process_button_tables (index direction : Z) (r : Reading) (s : State) :
  arpeg_note_indexes (self (process_button fl index direction r s))
  = arpeg_note_indexes (self s).
Proof.
  unfold process_button, pressed.
  destruct (raw_button index r); [|done].
  by destruct (Qle_bool _ _).
Qed.

Lemma after_buttons_tables (u : Turn) (s : State) :
  arpeg_note_indexes (self (after_buttons fl u s)) = arpeg_note_indexes (self s).
Proof.
  unfold after_buttons, process_button_presses.
  by rewrite !process_button_tables.
Qed.

(** With the tables of [__init__], the tone change raises no [IndexError],
    whatever the board reads. *)
Lemma change_tone_if_needed_returns (r : Reading) (s : State) :
  arpeg_note_indexes (self s) = create_arpeggios (NUM_OCTAVES + 2) →
  ∃ s', change_tone_if_needed fl fpow r s = Some s'
        ∧ arpeg_note_indexes (self s') = create_arpeggios (NUM_OCTAVES + 2).
Proof.
  intros Hs.
  assert (arpeggio_index r = 0 ∨ arpeggio_index r = 1) as Hsel.
  { unfold arpeggio_index. destruct (switch r); auto. }
  destruct (freq_returns fl fpow (tilt fl r) (arpeggio_index r) (self s)
              (tilt_range fl r) Hsel Hs) as [f Hf].
  unfold change_tone_if_needed. rewrite Hf. simpl.
  destruct (freq_differs f (last_freq (self s))); eauto.
Qed.

Lemma run_turn_returns (u : Turn) (s : State) :
  arpeg_note_indexes (self s) = create_arpeggios (NUM_OCTAVES + 2) →
  ∃ s', run_turn fl fpow u s = Some s'
        ∧ arpeg_note_indexes (self s') = create_arpeggios (NUM_OCTAVES + 2).
Proof.
  intros Hs. rewrite run_turn_unfold.
  pose proof (after_buttons_tables u s) as Ht. rewrite Hs in Ht.
  destruct (evaluates fl u s); [|eauto].
  by apply change_tone_if_needed_returns.
Qed.

(** Every finite prefix of the loop of [run] completes. *)
Lemma run_returns (us : list Turn) (s : State) :
  arpeg_note_indexes (self s) = create_arpeggios (NUM_OCTAVES + 2) →
  ∃ s', run fl fpow us s = Some s'
        ∧ arpeg_note_indexes (self s') = create_arpeggios (NUM_OCTAVES + 2).
Proof.
  revert s. induction us as [|u us IH]; intros s Hs; simpl; [eauto|].
  destruct (run_turn_returns u s Hs) as (s1 & -> & Hs1). simpl. by apply IH.
Qed.

Lemma square_waveform_full_volume :
  _square_waveform fl generator_length 1 = Some [0; 32767].
Proof.
  unfold _square_waveform, generator_length, fmul. simpl. do 3 f_equal.
  change 32767 with (Py.int (65535 # 2)). apply int_proper.
  assert (fl ((1 # 2) * 1) == 1 # 2)%Q as ->.
  { apply Qeq_trans with (fl (inject_Z 1 * 2 ^ (-1))); [by apply (fl_proper fl)|].
    by rewrite fl_exact by (simpl; lia). }
  apply Qeq_trans with (fl (inject_Z 65535 * 2 ^ (-1))); [by apply (fl_proper fl)|].
  by rewrite fl_exact by (simpl; lia).
Qed.

Lemma create_waveform_full_volume (c : CustomizedExpress) :
  _volume c = 1%Q →
  _create_waveform fl c = Some (set_raw_sample (new_RawSample [0; 32767]) c).
Proof.
  intros Hv. unfold _create_waveform.
  by rewrite Hv, square_waveform_full_volume.
Qed.

(** The module body builds the board and the instrument. *)
Lemma main_returns (t1 t2 : Q) (r : Reading) :
  ∃ s, main fl t1 t2 r = Some s
       ∧ arpeg_note_indexes (self s) = create_arpeggios (NUM_OCTAVES + 2)
       ∧ length (pixels (cpx s)) = 10%nat
       ∧ _highest_supported_frequency (cpx s) = 20000
       ∧ _volume (cpx s) = 1%Q.
Proof.
  unfold main, CustomizedExpress_init, set_volume.
  rewrite create_waveform_full_volume by reflexivity.
  cbn [mbind option_bind].
  rewrite create_waveform_full_volume by reflexivity.
  eexists. split; [reflexivity|]. by repeat split.
Qed.

End Runs.

(** The sample board and instrument are those of the program started at
    time 0 on a board at rest. *)
Lemma main_fresh_state : main binary53 0 0 board_at_rest = Some fresh_state.
Proof. vm_compute. reflexivity. Qed.

(** * Further properties *)

(** ** Note tables, one octave up *)

(** X1. In a table of [create_arpeggio], whatever the pattern, the entry one
    pattern length further on is the same note one octave higher: twelve
    half-steps more. *)
Theorem create_arpeggio_octave_up (arpeggio : list Z) (num_octaves i : Z) :
  0 ≤ i → i + Py.len arpeggio < Py.len arpeggio * num_octaves →
  ∃ note,
    Py.getitem (create_arpeggio arpeggio num_octaves) i = Some note
    ∧ Py.getitem (create_arpeggio arpeggio num_octaves) (i + Py.len arpeggio)
      = Some (note + 12).
Proof.
  intros Hi Hlt. unfold Py.len in *.
  remember (Z.of_nat (length arpeggio)) as n eqn:En.
  assert (0 < n) as Hn.
  { destruct (Z.eq_dec n 0) as [E0|]; [|lia]. rewrite E0 in Hlt. lia. }
  pose proof (Z.div_mod i n ltac:(lia)) as Hdm.
  pose proof (Z.mod_pos_bound i n Hn) as Hmod.
  assert (0 ≤ i / n) as Hq by (apply Z.div_pos; lia).
  assert (i / n + 1 < num_octaves) as Hq1 by nia.
  destruct (lookup_lt_is_Some_2 arpeggio (Z.to_nat (i mod n))) as [note Hnote];
    [lia|].
  exists (i / n * 12 + note).
  rewrite !getitem_nonneg by lia. split.
  - replace (Z.to_nat i)
      with (Z.to_nat (i / n) * length arpeggio + Z.to_nat (i mod n))%nat by nia.
    apply create_arpeggio_lookup; [lia|done].
  - replace (Z.to_nat (i + n))
      with (Z.to_nat (i / n + 1) * length arpeggio + Z.to_nat (i mod n))%nat by nia.
    rewrite (create_arpeggio_lookup arpeggio num_octaves (i / n + 1) _ note);
      [|lia|done].
    f_equal. unfold HS_OCT. lia.
Qed.

Lemma create_arpeggio_octave_up_witness :
  ∃ note,
    Py.getitem (create_arpeggio [0; 3; 5; 6; 7; 10] 6) 9 = Some note
    ∧ Py.getitem (create_arpeggio [0; 3; 5; 6; 7; 10] 6)
        (9 + Py.len [0; 3; 5; 6; 7; 10])
      = Some (note + 12).
Proof.
  apply (create_arpeggio_octave_up [0; 3; 5; 6; 7; 10] 6 9); [lia|].
  vm_compute. reflexivity.
Defined.

(** ** Steps around the circle *)

(** X2. Calls of [advance] add up: [advance(a)] then [advance(b)] leaves the
    state of [advance(a + b)].  On a consistent state [advance(0)] changes
    nothing, so [advance(-a)] undoes [advance(a)], and a full turn of twelve
    steps comes back to the same state. *)
Theorem advance_adds_up :
  (∀ (a b : Z) (t : TiltingArpeggios),
     advance b (advance a t) = advance (a + b) t)
  ∧ (∀ (a : Z) (t : TiltingArpeggios),
       transposition_ok t →
       advance 0 t = t ∧ advance (- a) (advance a t) = t ∧ advance 12 t = t).
Proof.
  assert (∀ a b t, advance b (advance a t) = advance (a + b) t) as Hadd.
  { intros a b t. unfold advance, Py.mod_, HS_OCT, set_position. simpl.
    replace ((circle_pos t + a) mod 12 + b) with (b + (circle_pos t + a) mod 12)
      by lia.
    rewrite Zplus_mod_idemp_r.
    by replace (b + (circle_pos t + a)) with (circle_pos t + (a + b)) by lia. }
  assert (∀ k t, transposition_ok t → advance (12 * k) t = t) as Hfull.
  { intros k t [Hpos Hkey]. unfold advance, Py.mod_, HS_OCT, HS_4TH.
    replace ((circle_pos t + 12 * k) mod 12) with (circle_pos t).
    - rewrite <- Hkey. by destruct t.
    - replace (circle_pos t + 12 * k) with (circle_pos t + k * 12) by lia.
      rewrite Z_mod_plus_full. symmetry. by apply Z.mod_small; lia. }
  split; [exact Hadd|]. intros a t Hok. split; [|split].
  - apply (Hfull 0 t Hok).
  - rewrite Hadd. replace (a + - a) with (12 * 0) by lia. by apply Hfull.
  - apply (Hfull 1 t Hok).
Qed.

Lemma advance_adds_up_witness :
  advance 0 (self fresh_state) = self fresh_state
  ∧ advance (- 5) (advance 5 (self fresh_state)) = self fresh_state
  ∧ advance 12 (self fresh_state) = self fresh_state.
Proof.
  apply (proj2 advance_adds_up 5 (self fresh_state)).
  split; [simpl; lia|reflexivity].
Defined.

(** X3. The circle is one of fourths: on a consistent state a step forward
    raises the key by five half-steps modulo the octave and a step back by
    seven, and two positions of the circle never share a key, so the twelve
    positions give the twelve keys. *)
Theorem circle_of_fourths (t t' : TiltingArpeggios) :
  transposition_ok t → transposition_ok t' →
  key_offset (advance 1 t) = (key_offset t + 5) mod 12
  ∧ key_offset (advance (-1) t) = (key_offset t + 7) mod 12
  ∧ (key_offset t = key_offset t' → circle_pos t = circle_pos t').
Proof.
  intros [Hpos Hkey] [Hpos' Hkey'].
  unfold advance, Py.mod_, HS_OCT, HS_4TH. simpl. rewrite Hkey, Hkey'.
  assert (∀ p, 0 ≤ p ≤ 11 →
            p = 0 ∨ p = 1 ∨ p = 2 ∨ p = 3 ∨ p = 4 ∨ p = 5 ∨ p = 6 ∨ p = 7
            ∨ p = 8 ∨ p = 9 ∨ p = 10 ∨ p = 11) as Hcases by lia.
  destruct (Hcases _ Hpos) as [->|[->|[->|[->|[->|[->|[->|[->|[->|[->|[->| ->]]]]]]]]]]];
    (split; [reflexivity|]); (split; [reflexivity|]);
    destruct (Hcases _ Hpos') as [->|[->|[->|[->|[->|[->|[->|[->|[->|[->|[->| ->]]]]]]]]]]];
    intros H; try reflexivity; discriminate H.
Qed.

Lemma circle_of_fourths_witness :
  key_offset (advance 1 (self fresh_state)) = (key_offset (self fresh_state) + 5) mod 12
  ∧ key_offset (advance (-1) (self fresh_state))
    = (key_offset (self fresh_state) + 7) mod 12
  ∧ (key_offset (self fresh_state) = key_offset (advance 7 (self fresh_state)) →
     circle_pos (self fresh_state) = circle_pos (advance 7 (self fresh_state))).
Proof.
  apply (circle_of_fourths (self fresh_state) (advance 7 (self fresh_state))).
  - split; [simpl; lia|reflexivity].
  - split; [vm_compute; split; discriminate|reflexivity].
Defined.

(** ** The ring of pixels *)

Lemma update_pixel_shows (pos : Z) (c : CustomizedExpress) :
  length (pixels c) = 10%nat → shows (update_pixel pos c) pos.
Proof. intros Hlen. unfold shows, update_pixel. simpl. by rewrite Hlen. Qed.

Lemma shows_length (c : CustomizedExpress) (pos : Z) :
  shows c pos → length (pixels c) = 10%nat.
Proof. intros ->. by rewrite length_insert, length_replicate. Qed.

Lemma circle_positions (p : Z) :
  0 ≤ p ≤ 11 →
  p = 0 ∨ p = 1 ∨ p = 2 ∨ p = 3 ∨ p = 4 ∨ p = 5 ∨ p = 6 ∨ p = 7
  ∨ p = 8 ∨ p = 9 ∨ p = 10 ∨ p = 11.
Proof. lia. Qed.

(** X4. On a ring of ten pixels [update_pixel] shows the position it is
    given, whatever the ring showed before, and the ring never shows two of
    the circle positions 0 to 11 at once: the positions 10 and 11 light
    the pixels of the positions 0 and 1, in the other colour. *)
Theorem ring_tells_position :
  (∀ (pos pos' : Z) (c : CustomizedExpress),
     length (pixels c) = 10%nat →
     shows (update_pixel pos c) pos
     ∧ update_pixel pos (update_pixel pos' c) = update_pixel pos c)
  ∧ (∀ (c : CustomizedExpress) (pos pos' : Z),
       0 ≤ pos ≤ 11 → 0 ≤ pos' ≤ 11 → shows c pos → shows c pos' → pos = pos')
  ∧ pixel_index 10 = pixel_index 0 ∧ pixel_color 10 ≠ pixel_color 0
  ∧ pixel_index 11 = pixel_index 1 ∧ pixel_color 11 ≠ pixel_color 1.
Proof.
  split; [|split].
  - intros pos pos' c Hlen. split; [by apply update_pixel_shows|].
    unfold update_pixel. simpl. by rewrite length_insert, length_replicate.
  - intros c pos pos' Hpos Hpos' Hs Hs'. unfold shows in *. rewrite Hs in Hs'.
    clear Hs.
    destruct (circle_positions _ Hpos)
      as [->|[->|[->|[->|[->|[->|[->|[->|[->|[->|[->| ->]]]]]]]]]]];
    destruct (circle_positions _ Hpos')
      as [->|[->|[->|[->|[->|[->|[->|[->|[->|[->|[->| ->]]]]]]]]]]];
    try reflexivity; discriminate Hs'.
  - repeat split; discriminate.
Qed.

Lemma ring_tells_position_witness :
  shows (update_pixel 11 fresh_board) 11
  ∧ update_pixel 11 (update_pixel 3 fresh_board) = update_pixel 11 fresh_board.
Proof.
  apply (proj1 ring_tells_position 11 3 fresh_board). reflexivity.
Defined.

(** ** Tilt and the note it selects *)

Lemma int_mono (x y : Q) : (x <= y)%Q → Py.int x ≤ Py.int y.
Proof.
  intros Hxy. unfold Py.int.
  destruct (Qle_bool 0 x) eqn:Hx, (Qle_bool 0 y) eqn:Hy.
  - by apply Qfloor_resp_le.
  - apply Qle_bool_iff in Hx. exfalso.
    assert (Qle_bool 0 y = true) by (apply Qle_bool_iff; lra). congruence.
  - apply Qle_bool_iff in Hy.
    assert (x < 0)%Q as Hx0.
    { apply Qnot_le_lt. intros H. apply Qle_bool_iff in H. congruence. }
    pose proof (Qceiling_resp_le x 0 (Qlt_le_weak _ _ Hx0)) as Hc.
    pose proof (Qfloor_resp_le 0 y Hy) as Hf.
    change (Qceiling 0) with 0 in Hc. change (Qfloor 0) with 0 in Hf. lia.
  - by apply Qceiling_resp_le.
Qed.

Section Tilt.

Context (fl : Q → Q) `{!Rounding fl}.

Lemma standard_gravity_pos : (0 < fl (981 # 100))%Q.
Proof.
  apply Qlt_le_trans with (fl (inject_Z 9)); [|apply fl_mono; discriminate].
  apply Qlt_le_trans with (inject_Z 9); [reflexivity|].
  apply Qle_lteq. right. symmetry. apply (fl_Z fl). simpl. lia.
Qed.

Lemma tilt_mono (r r' : Reading) :
  (snd (fst (acceleration r')) <= snd (fst (acceleration r)))%Q →
  (tilt fl r <= tilt fl r')%Q.
Proof.
  intros Hy. unfold tilt, fdiv. apply fl_mono.
  pose proof standard_gravity_pos as Hg.
  apply Qmult_le_compat_r; [|by apply Qlt_le_weak, Qinv_lt_0_compat].
  apply Q.min_le_compat_r, Q.max_le_compat_l. lra.
Qed.

Lemma arpeg_index_mono (t t' : Q) (sel i i' : Z) :
  (t <= t')%Q → arpeg_index fl t sel = Some i → arpeg_index fl t' sel = Some i' →
  sel = 0 ∨ sel = 1 → i ≤ i'.
Proof.
  intros Ht Hi Hi' Hsel. unfold arpeg_index in *.
  destruct Hsel as [-> | ->]; simpl in *;
    injection Hi as <-; injection Hi' as <-;
    apply int_mono; unfold fmul; apply fl_mono;
    (apply Qmult_le_compat_r; [done|discriminate]).
Qed.

End Tilt.

(** X5. [tilt] returns a number from 0 to 1 whatever the accelerometer
    reads: 0 as long as the Y acceleration is not negative (board level or
    tilted the other way), 1 once the Y acceleration is at or below minus
    the standard gravity, and it never decreases when the Y acceleration
    decreases. *)
Theorem tilt_normalized (fl : Q → Q) `{!Rounding fl} (r r' : Reading) :
  let y := snd (fst (acceleration r)) in
  (0 <= tilt fl r <= 1)%Q
  ∧ ((0 <= y)%Q → (tilt fl r == 0)%Q)
  ∧ ((y <= - fl (981 # 100))%Q → (tilt fl r == 1)%Q)
  ∧ ((snd (fst (acceleration r')) <= y)%Q → (tilt fl r <= tilt fl r')%Q).
Proof.
  intros y. pose proof (standard_gravity_pos fl) as Hg.
  split; [apply (tilt_range fl)|]. split; [|split].
  - intros Hy. unfold tilt, fdiv. fold y.
    apply Qeq_trans with (fl (inject_Z 0)); [|apply (fl_Z fl); simpl; lia].
    apply (fl_proper fl).
    rewrite (Q.max_l 0 (- y)) by lra.
    rewrite (Q.min_l 0 (fl (981 # 100))) by lra. unfold Qdiv. apply Qmult_0_l.
  - intros Hy. unfold tilt, fdiv. fold y.
    apply Qeq_trans with (fl (inject_Z 1)); [|apply (fl_Z fl); simpl; lia].
    apply (fl_proper fl).
    rewrite (Q.max_r 0 (- y)) by lra.
    rewrite (Q.min_r (- y) (fl (981 # 100))) by lra.
    apply Qmult_inv_r. lra.
  - apply (tilt_mono fl).
Qed.

Lemma tilt_normalized_witness :
  let r := {| button_a := false; button_b := false; switch := true;
              acceleration := (0, - (10 # 1), 0)%Q; monotonic := 0 |} in
  (tilt binary53 r == 1)%Q ∧ (tilt binary53 board_at_rest == 0)%Q
  ∧ (tilt binary53 board_at_rest <= tilt binary53 r)%Q.
Proof.
  intros r. split; [|split].
  - apply (tilt_normalized binary53 (Rounding0 := binary53_rounding) r r).
    vm_compute. discriminate.
  - apply (tilt_normalized binary53 (Rounding0 := binary53_rounding)
             board_at_rest board_at_rest).
    discriminate.
  - apply (tilt_normalized binary53 (Rounding0 := binary53_rounding)
             board_at_rest r).
    discriminate.
Defined.

(** [freq] returns the frequency of [note_index]. *)
Lemma freq_note_index (fl : Q → Q) (fpow : Q → Q → Q) (t : Q) (sel : Z)
    (s : TiltingArpeggios) :
  freq fl fpow t sel s = calc_freq fl fpow <$> note_index fl t sel s.
Proof.
  unfold freq, note_index.
  destruct (Py.getitem (arpeg_note_indexes s) sel) as [table|]; [|done]. simpl.
  destruct (arpeg_index fl t sel) as [i|]; [|done]. simpl.
  by destruct (Py.getitem table i).
Qed.

Lemma getitem_is_Some {A} (l : list A) (i : Z) :
  is_Some (Py.getitem l i) ↔ - Py.len l ≤ i < Py.len l.
Proof.
  unfold Py.getitem, Py.len.
  destruct (Z.leb_spec 0 i) as [Hi|Hi].
  - rewrite lookup_lt_is_Some. lia.
  - destruct (Z.leb_spec (- Z.of_nat (length l)) i) as [Hl|Hl].
    + rewrite lookup_lt_is_Some. lia.
    + split; [by intros [x Hx]|lia].
Qed.

Lemma tables_selected (sel : Z) :
  sel = 0 ∨ sel = 1 →
  ∃ arpeggio, Py.getitem ARPEGGIOS sel = Some arpeggio
    ∧ arpeggio ∈ ARPEGGIOS
    ∧ Py.getitem (create_arpeggios (NUM_OCTAVES + 2)) sel
      = Some (create_arpeggio arpeggio 6).
Proof.
  intros [-> | ->]; eexists; (split; [reflexivity|]); (split; [|reflexivity]);
    unfold ARPEGGIOS.
  - apply list_elem_of_here.
  - apply list_elem_of_further, list_elem_of_here.
Qed.

(** On the range of the tilt, the note of the table does not decrease with
    the index. *)
Lemma table_mono (arpeggio : list Z) (i i' note note' : Z) :
  arpeggio ∈ ARPEGGIOS → 0 ≤ i ≤ i' →
  Py.getitem (create_arpeggio arpeggio 6) i = Some note →
  Py.getitem (create_arpeggio arpeggio 6) i' = Some note' →
  note ≤ note'.
Proof.
  intros Hin Hi Hn Hn'. rewrite getitem_nonneg in Hn, Hn' by lia.
  destruct (decide (i = i')) as [<-|Hne]; [by simplify_eq|].
  apply Z.lt_le_incl.
  apply (StronglySorted_lookup_lt (create_arpeggio arpeggio 6)
           (Z.to_nat i) (Z.to_nat i')); [|lia|done..].
  by apply create_arpeggio_sorted, ARPEGGIOS_rising.
Qed.

(** X6. Tilting further never lowers the note: with the tables of
    [__init__] and the switch as it is, when the Y acceleration decreases
    the note that [freq] selects stays or rises. *)
Theorem tilting_further_never_lowers (fl : Q → Q) `{!Rounding fl}
    (r r' : Reading) (s : TiltingArpeggios) :
  arpeg_note_indexes s = create_arpeggios (NUM_OCTAVES + 2) →
  switch r' = switch r →
  (snd (fst (acceleration r')) <= snd (fst (acceleration r)))%Q →
  ∃ note note',
    note_index fl (tilt fl r) (arpeggio_index r) s = Some note
    ∧ note_index fl (tilt fl r') (arpeggio_index r') s = Some note'
    ∧ note ≤ note'.
Proof.
  intros Hs Hsw Hy.
  assert (arpeggio_index r' = arpeggio_index r) as Hsel
    by (unfold arpeggio_index; by rewrite Hsw).
  assert (arpeggio_index r = 0 ∨ arpeggio_index r = 1) as Hsel01
    by (unfold arpeggio_index; destruct (switch r); auto).
  rewrite Hsel. set (sel := arpeggio_index r) in *.
  destruct (tables_selected sel Hsel01) as (arpeggio & Harp & Hin & Htable).
  pose proof (tilt_mono fl r r' Hy) as Ht.
  assert (∀ t, (0 <= t <= 1)%Q →
            ∃ i note, arpeg_index fl t sel = Some i ∧ 0 ≤ i
              ∧ Py.getitem (create_arpeggio arpeggio 6) i = Some note
              ∧ note_index fl t sel s = Some (key_offset s + note)) as Hnote.
  { intros t Hrange.
    destruct (freq_returns fl (λ _ _, 0%Q) t sel s Hrange Hsel01 Hs) as [f Hf].
    rewrite freq_note_index in Hf. unfold note_index in *.
    rewrite Hs, Htable in *. simpl in *.
    destruct (arpeg_index fl t sel) as [i|] eqn:Hi; [|done]. simpl in *.
    destruct (Py.getitem (create_arpeggio arpeggio 6) i) as [note|] eqn:Hn;
      [|done].
    exists i, note. repeat split; try done.
    destruct Hsel01 as [E|E]; rewrite E in Hi.
    - destruct (arpeg_index_between fl t 0 17) as (j & Hj & Hr); [done|lia|done|].
      rewrite Hj in Hi. injection Hi as <-. lia.
    - destruct (arpeg_index_between fl t 1 25) as (j & Hj & Hr); [done|lia|done|].
      rewrite Hj in Hi. injection Hi as <-. lia. }
  destruct (Hnote _ (tilt_range fl r)) as (i & note & Hi & Hi0 & Hn & ->).
  destruct (Hnote _ (tilt_range fl r')) as (i' & note' & Hi' & _ & Hn' & ->).
  exists (key_offset s + note), (key_offset s + note'). repeat split.
  pose proof (arpeg_index_mono fl _ _ sel i i' Ht Hi Hi' Hsel01) as Hii.
  pose proof (table_mono arpeggio i i' note note' Hin (conj Hi0 Hii) Hn Hn'). lia.
Qed.

Lemma tilting_further_never_lowers_witness :
  let r := {| button_a := false; button_b := false; switch := false;
              acceleration := (0, - (3 # 1), 0)%Q; monotonic := 0 |} in
  let r' := {| button_a := false; button_b := false; switch := false;
               acceleration := (0, - (7 # 1), 0)%Q; monotonic := 0 |} in
  ∃ note note',
    note_index binary53 (tilt binary53 r) (arpeggio_index r) (self fresh_state)
    = Some note
    ∧ note_index binary53 (tilt binary53 r') (arpeggio_index r') (self fresh_state)
      = Some note'
    ∧ note ≤ note'.
Proof.
  intros r r'.
  apply (tilting_further_never_lowers binary53 (Rounding0 := binary53_rounding)
           r r' (self fresh_state)); [reflexivity|reflexivity|discriminate].
Defined.

(** For a normalized tilt the selected entry of the table lies between its
    first entry, 0, and the entry at the top of the tilt, 52 or 51. *)
Lemma selected_note_between (fl : Q → Q) `{!Rounding fl} (t : Q) (sel : Z) :
  (0 <= t <= 1)%Q → sel = 0 ∨ sel = 1 →
  ∃ table i note,
    Py.getitem (create_arpeggios (NUM_OCTAVES + 2)) sel = Some table
    ∧ arpeg_index fl t sel = Some i
    ∧ Py.getitem table i = Some note
    ∧ 0 ≤ note ≤ 52.
Proof.
  intros Ht Hsel.
  destruct (tables_selected sel Hsel) as (arpeggio & Harp & Hin & Htable).
  assert (∃ i n, arpeg_index fl t sel = Some i ∧ 0 ≤ i ≤ n
            ∧ Py.getitem (create_arpeggio arpeggio 6) 0 = Some 0
            ∧ (Py.getitem (create_arpeggio arpeggio 6) n = Some 52
               ∨ Py.getitem (create_arpeggio arpeggio 6) n = Some 51))
    as (i & n & Hi & Hr & H0 & Hn).
  { destruct Hsel as [-> | ->]; injection Harp as <-.
    - destruct (arpeg_index_between fl t 0 17) as (i & Hi & Hr); [done|lia|done|].
      exists i, 17. repeat split; try done; try lia. by left.
    - destruct (arpeg_index_between fl t 1 25) as (i & Hi & Hr); [done|lia|done|].
      exists i, 25. repeat split; try done; try lia. by right. }
  assert (is_Some (Py.getitem (create_arpeggio arpeggio 6) i)) as [note Hnote].
  { apply getitem_is_Some. unfold Py.len. rewrite create_arpeggio_length.
    destruct Hn as [Hn|Hn]; apply mk_is_Some, getitem_is_Some in Hn;
      unfold Py.len in Hn; rewrite create_arpeggio_length in Hn; lia. }
  exists (create_arpeggio arpeggio 6), i, note. repeat split; try done.
  - by pose proof (table_mono arpeggio 0 i 0 note Hin ltac:(lia) H0 Hnote).
  - destruct Hn as [Hn|Hn];
      pose proof (table_mono arpeggio i n note _ Hin ltac:(lia) Hnote Hn); lia.
Qed.

Lemma key_offset_range (s : TiltingArpeggios) :
  transposition_ok s → 0 ≤ key_offset s ≤ 11.
Proof.
  intros [_ ->]. pose proof (Z.mod_pos_bound (circle_pos s * 5) 12). lia.
Qed.

(** X7. On a consistent state with the tables of [__init__], the note that
    [freq] selects for a normalized tilt is a chromatic index from 0 to 63:
    the key offset, at most 11, plus a note of the first 18 (seventh) or 26
    (blues) entries of the table, at most 52. *)
Theorem note_index_range (fl : Q → Q) `{!Rounding fl} (t : Q) (sel : Z)
    (s : TiltingArpeggios) :
  transposition_ok s →
  arpeg_note_indexes s = create_arpeggios (NUM_OCTAVES + 2) →
  (0 <= t <= 1)%Q → sel = 0 ∨ sel = 1 →
  ∃ note, note_index fl t sel s = Some note
          ∧ key_offset s ≤ note ≤ key_offset s + 52
          ∧ 0 ≤ note ≤ 63.
Proof.
  intros Hok Hs Ht Hsel. pose proof (key_offset_range s Hok) as Hk.
  destruct (selected_note_between fl t sel Ht Hsel)
    as (table & i & note & Htable & Hi & Hnote & Hr).
  exists (key_offset s + note). unfold note_index.
  rewrite Hs, Htable. simpl. rewrite Hi. simpl. rewrite Hnote. simpl.
  split; [done|]. lia.
Qed.

Lemma note_index_range_witness :
  ∃ note, note_index binary53 (1 # 3) 1 (self fresh_state) = Some note
          ∧ key_offset (self fresh_state) ≤ note ≤ key_offset (self fresh_state) + 52
          ∧ 0 ≤ note ≤ 63.
Proof.
  apply (note_index_range binary53 (Rounding0 := binary53_rounding)
           (1 # 3) 1 (self fresh_state)).
  - split; [simpl; lia|reflexivity].
  - reflexivity.
  - split; discriminate.
  - right. reflexivity.
Defined.

(** ** Positions beyond the tilt *)

Lemma int_lt_iff (x : Q) (n : Z) :
  0 < n → Py.int x < n ↔ (x < inject_Z n)%Q.
Proof.
  intros Hn. unfold Py.int. destruct (Qle_bool 0 x) eqn:Hx.
  - pose proof (Qfloor_le x) as Hf. pose proof (Qlt_floor x) as Hf'. split.
    + intros H. apply Qlt_le_trans with (inject_Z (Qfloor x + 1)); [done|].
      rewrite <- Zle_Qle. lia.
    + intros H. rewrite Zlt_Qlt. by apply Qle_lt_trans with x.
  - assert (x < 0)%Q as Hx0.
    { apply Qnot_le_lt. intros H. apply Qle_bool_iff in H. congruence. }
    pose proof (Qceiling_resp_le x 0 (Qlt_le_weak _ _ Hx0)) as Hc.
    change (Qceiling 0) with 0 in Hc.
    assert (0 < inject_Z n)%Q by (by rewrite (Zlt_Qlt 0 n) in Hn).
    split; [intros _; lra|lia].
Qed.

Lemma int_ge_iff (x : Q) (n : Z) :
  0 ≤ n → - n ≤ Py.int x ↔ (inject_Z (- n - 1) < x)%Q.
Proof.
  intros Hn. unfold Py.int. destruct (Qle_bool 0 x) eqn:Hx.
  - apply Qle_bool_iff in Hx.
    pose proof (Qfloor_resp_le 0 x Hx) as Hf. change (Qfloor 0) with 0 in Hf.
    assert (inject_Z (- n - 1) < 0)%Q
      by (change 0%Q with (inject_Z 0); rewrite <- Zlt_Qlt; lia).
    split; [intros _; lra|lia].
  - pose proof (Qle_ceiling x) as Hc. pose proof (Qceiling_lt x) as Hc'. split.
    + intros H. apply Qle_lt_trans with (inject_Z (Qceiling x - 1)); [|done].
      rewrite <- Zle_Qle. lia.
    + intros H. assert (- n - 1 < Qceiling x); [|lia].
      rewrite Zlt_Qlt. by apply Qlt_le_trans with x.
Qed.

Lemma freq_is_Some (fl : Q → Q) (fpow : Q → Q → Q) (t : Q) (sel n : Z)
    (arpeggio : list Z) (s : TiltingArpeggios) :
  arpeg_note_indexes s = create_arpeggios (NUM_OCTAVES + 2) →
  Py.getitem (create_arpeggios (NUM_OCTAVES + 2)) sel = Some (create_arpeggio arpeggio 6) →
  num_arpeg_notes_in_range sel = Some n → (0 < length arpeggio)%nat →
  is_Some (freq fl fpow t sel s)
  ↔ (inject_Z (- (Py.len arpeggio * 6) - 1) < fmul fl t (inject_Z n)
     < inject_Z (Py.len arpeggio * 6))%Q.
Proof.
  intros Hs Htable Hn Hlen. rewrite freq_note_index, fmap_is_Some.
  unfold note_index, arpeg_index. rewrite Hs, Htable, Hn. simpl.
  set (i := Py.int (fmul fl t (inject_Z n))).
  assert (is_Some (Py.getitem (create_arpeggio arpeggio 6) i ≫= λ note,
                   Some (key_offset s + note))
          ↔ is_Some (Py.getitem (create_arpeggio arpeggio 6) i)) as ->.
  { destruct (Py.getitem _ i); simpl; [split; eauto|done]. }
  rewrite getitem_is_Some. unfold Py.len. rewrite create_arpeggio_length.
  replace (Z.of_nat (Z.to_nat 6 * length arpeggio))
    with (Z.of_nat (length arpeggio) * 6) by lia.
  unfold i. rewrite <- int_ge_iff, <- int_lt_iff by lia. done.
Qed.

(** X8. With the tables of [__init__], [freq] raises [IndexError] exactly
    when the rounded product of the position and the notes in range leaves
    the interval from -25 to 24 (seventh) or from -37 to 36 (blues), ends
    excluded.  So a position of 24/17 (36/25) or more raises, and a negative
    position down to -1 raises nothing: its index counts from the end of the
    table. *)
Theorem freq_index_error (fl : Q → Q) (fpow : Q → Q → Q) (t : Q)
    (s : TiltingArpeggios) :
  arpeg_note_indexes s = create_arpeggios (NUM_OCTAVES + 2) →
  (is_Some (freq fl fpow t 0 s) ↔ (- (25 # 1) < fmul fl t 17 < 24)%Q)
  ∧ (is_Some (freq fl fpow t 1 s) ↔ (- (37 # 1) < fmul fl t 25 < 36)%Q)
  ∧ (Rounding fl →
     ((24 # 17 <= t)%Q → freq fl fpow t 0 s = None)
     ∧ ((36 # 25 <= t)%Q → freq fl fpow t 1 s = None)
     ∧ ((- (1 # 1) <= t <= 0)%Q →
        is_Some (freq fl fpow t 0 s) ∧ is_Some (freq fl fpow t 1 s))).
Proof.
  intros Hs.
  assert (is_Some (freq fl fpow t 0 s) ↔ (- (25 # 1) < fmul fl t 17 < 24)%Q) as H0
    by exact (freq_is_Some fl fpow t 0 17 [0; 4; 7; 10] s Hs eq_refl eq_refl
                ltac:(simpl; lia)).
  assert (is_Some (freq fl fpow t 1 s) ↔ (- (37 # 1) < fmul fl t 25 < 36)%Q) as H1
    by exact (freq_is_Some fl fpow t 1 25 [0; 3; 5; 6; 7; 10] s Hs eq_refl eq_refl
                ltac:(simpl; lia)).
  split; [exact H0|]. split; [exact H1|]. intros Hfl.
  assert (∀ (x : Q) (n : Z), Z.abs n ≤ 2 ^ 53 →
            ((inject_Z n <= x)%Q → (inject_Z n <= fl x)%Q)
            ∧ ((x <= inject_Z n)%Q → (fl x <= inject_Z n)%Q)) as Hb.
  { intros x n Hn. pose proof (fl_Z fl n Hn) as E. split; intros H.
    - apply Qle_trans with (fl (inject_Z n)); [|by apply fl_mono].
      apply Qle_lteq. right. by symmetry.
    - apply Qle_trans with (fl (inject_Z n)); [by apply fl_mono|].
      apply Qle_lteq. by right. }
  split; [|split].
  - intros Ht. apply eq_None_not_Some. rewrite H0. intros [_ Hlt].
    assert (24 <= fmul fl t 17)%Q; [|lra].
    apply (Hb _ 24); [simpl; lia|]. unfold inject_Z. lra.
  - intros Ht. apply eq_None_not_Some. rewrite H1. intros [_ Hlt].
    assert (36 <= fmul fl t 25)%Q; [|lra].
    apply (Hb _ 36); [simpl; lia|]. unfold inject_Z. lra.
  - intros [Hlo Hhi]. rewrite H0, H1.
    assert (- (17 # 1) <= fmul fl t 17 <= 0)%Q as [? ?].
    { split; [apply (Hb _ (-17))|apply (Hb _ 0)]; simpl; try lia; unfold inject_Z; lra. }
    assert (- (25 # 1) <= fmul fl t 25 <= 0)%Q as [? ?].
    { split; [apply (Hb _ (-25))|apply (Hb _ 0)]; simpl; try lia; unfold inject_Z; lra. }
    repeat split; lra.
Qed.

Lemma freq_index_error_witness :
  freq binary53 pow_chords (3 # 2) 0 (self fresh_state) = None
  ∧ freq binary53 pow_chords (3 # 2) 1 (self fresh_state) = None
  ∧ is_Some (freq binary53 pow_chords (- (1 # 2)) 0 (self fresh_state)).
Proof.
  split; [|split].
  - apply (freq_index_error binary53 pow_chords (3 # 2) (self fresh_state) eq_refl).
    + apply binary53_rounding.
    + discriminate.
  - apply (freq_index_error binary53 pow_chords (3 # 2) (self fresh_state) eq_refl).
    + apply binary53_rounding.
    + discriminate.
  - apply (freq_index_error binary53 pow_chords (- (1 # 2)) (self fresh_state) eq_refl).
    + apply binary53_rounding.
    + split; discriminate.
Defined.

(** ** The frequencies of the instrument *)

Lemma pow_chords_increasing : IncreasingPow pow_chords.
Proof.
  split. intros x y Hxy. unfold pow_chords.
  pose proof (Qfloor_le x) as Hx. pose proof (Qlt_floor x) as Hx'.
  pose proof (Qfloor_le y) as Hy. pose proof (Qlt_floor y) as Hy'.
  pose proof (Qfloor_resp_le x y Hxy) as Hf.
  rewrite inject_Z_plus in Hx', Hy'.
  destruct (Z_le_lt_eq_dec _ _ Hf) as [Hlt|Heq].
  - pose proof (pow2_pos (Qfloor x)) as Hpx. pose proof (pow2_pos (Qfloor y)) as Hpy.
    assert (2 ^ (Qfloor x + 1) <= 2 ^ Qfloor y)%Q as Hp by (apply pow2_le; lia).
    rewrite pow2_plus in Hp. change (2 ^ 1)%Q with 2%Q in Hp.
    apply Qle_trans with (2 ^ Qfloor x * 2)%Q.
    + apply Qmult_le_l; [done|]. unfold inject_Z in *. lra.
    + apply Qle_trans with (2 ^ Qfloor y * 1)%Q; [lra|].
      apply Qmult_le_l; [done|]. unfold inject_Z in *. lra.
  - rewrite <- Heq. apply Qmult_le_l; [apply pow2_pos|].
    unfold inject_Z in *. lra.
Qed.

Section FrequencyRange.

Context (fl : Q → Q) (fpow : Q → Q → Q)
        `{!Rounding fl} `{!Exponentiation fpow} `{!IncreasingPow fpow}.

Lemma STARTING_NOTE_between : (65406 # 1000 <= STARTING_NOTE fl <= 65407 # 1000)%Q.
Proof.
  rewrite (STARTING_NOTE_double fl).
  destruct (C1_FREQ_bounds fl) as [Hlo Hhi]. lra.
Qed.

(** Up to five octaves and a quarter above the base, the frequency stays
    between the base and 64 times the base. *)
Lemma calc_freq_between (i : Z) :
  0 ≤ i ≤ 63 → (65406 # 1000 <= calc_freq fl fpow i <= 4187)%Q.
Proof.
  intros Hi. unfold calc_freq, fmul, fdiv.
  pose proof STARTING_NOTE_between as [Hlo Hhi].
  assert (0 <= fl (inject_Z i / inject_Z HS_OCT) <= inject_Z 6)%Q as [Hy0 Hy6].
  { apply (fl_between fl); [lia|]. unfold HS_OCT, Qdiv.
    assert (0 <= inject_Z i <= 63)%Q as [? ?].
    { split; [change 0%Q with (inject_Z 0)|change 63%Q with (inject_Z 63)];
        rewrite <- Zle_Qle; lia. }
    change (/ inject_Z 12)%Q with (1 # 12)%Q. change (inject_Z 6) with 6%Q. lra. }
  set (y := fl (inject_Z i / inject_Z HS_OCT)) in *.
  assert (1 <= fpow 2 y <= 64)%Q as [Hp1 Hp64].
  { split.
    - rewrite <- (pow_two_int (pow := fpow) (inject_Z 0) 0) by done.
      by apply pow_two_mono.
    - change 64%Q with (2 ^ 6)%Q.
      rewrite <- (pow_two_int (pow := fpow) (inject_Z 6) 6) by done.
      by apply pow_two_mono. }
  split.
  - apply Qle_trans with (fl (STARTING_NOTE fl)).
    + rewrite fl_STARTING_NOTE by done. done.
    + apply fl_mono. generalize dependent (fpow 2 y). intros p Hp1 Hp64. nra.
  - apply Qle_trans with (fl (inject_Z 4187)).
    + apply fl_mono. change (inject_Z 4187) with 4187%Q.
      generalize dependent (fpow 2 y). intros p Hp1 Hp64. nra.
    + apply Qle_lteq. right. apply (fl_Z fl). simpl. lia.
Qed.

End FrequencyRange.

(** X9. On a consistent state with the tables of [__init__], every
    frequency that [freq] returns for a normalized tilt lies between the
    base frequency, 65.406 Hz, and 4187 Hz (the base six octaves up): far
    below the 20000 Hz above which [start_tone] stays silent.  This holds
    when [**] does not decrease with the exponent. *)
Theorem freq_within_range (fl : Q → Q) (fpow : Q → Q → Q)
    `{!Rounding fl} `{!Exponentiation fpow} `{!IncreasingPow fpow}
    (t : Q) (sel : Z) (s : TiltingArpeggios) :
  transposition_ok s →
  arpeg_note_indexes s = create_arpeggios (NUM_OCTAVES + 2) →
  (0 <= t <= 1)%Q → sel = 0 ∨ sel = 1 →
  ∃ f, freq fl fpow t sel s = Some f
       ∧ (65406 # 1000 <= f <= 4187)%Q
       ∧ (f <= 20000)%Q.
Proof.
  intros Hok Hs Ht Hsel. pose proof (key_offset_range s Hok) as Hk.
  destruct (selected_note_between fl t sel Ht Hsel)
    as (table & i & note & Htable & Hi & Hnote & Hr).
  exists (calc_freq fl fpow (key_offset s + note)). unfold freq.
  rewrite Hs, Htable. simpl. rewrite Hi. simpl. rewrite Hnote. simpl.
  split; [done|].
  pose proof (calc_freq_between fl fpow (key_offset s + note) ltac:(lia)) as [? ?].
  repeat split; try done. lra.
Qed.

Lemma freq_within_range_witness :
  ∃ f, freq binary53 pow_chords (1 # 1) 0 (advance (-1) (self fresh_state)) = Some f
       ∧ (65406 # 1000 <= f <= 4187)%Q
       ∧ (f <= 20000)%Q.
Proof.
  apply (freq_within_range binary53 pow_chords
           (Rounding0 := binary53_rounding)
           (Exponentiation0 := pow_chords_exponentiation)
           (IncreasingPow0 := pow_chords_increasing)
           1 0 (advance (-1) (self fresh_state))).
  - split; [vm_compute; split; discriminate|reflexivity].
  - reflexivity.
  - split; discriminate.
  - left. reflexivity.
Defined.

(** ** The buttons *)

Section Buttons.

Context (fl : Q → Q).

Lemma process_button_rejected (index direction : Z) (r : Reading) (s : State) :
  fst (pressed fl index r (self s)) = false →
  process_button fl index direction r s = s.
Proof.
  intros H. unfold process_button.
  pose proof (pressed_state fl index r (self s)) as Hs. rewrite H in Hs.
  destruct (pressed fl index r (self s)) as [accepted t]. simpl in *.
  subst. by destruct s.
Qed.

Lemma process_button_accepted (index direction : Z) (r : Reading) (s : State) :
  fst (pressed fl index r (self s)) = true →
  process_button fl index direction r s
  = let t := advance direction
               (set_next_press_allowed_at
                  (fadd fl (monotonic r) BUTTON_REPEAT_AFTER_SECONDS) (self s)) in
    {| self := t; cpx := update_pixel (circle_pos t) (cpx s) |}.
Proof.
  intros H. unfold process_button.
  pose proof (pressed_state fl index r (self s)) as Hs. rewrite H in Hs.
  destruct (pressed fl index r (self s)) as [accepted t]. simpl in *.
  by subst.
Qed.

End Buttons.

(** X10. [process_button_presses] moves one step forward around the circle
    when button A is accepted and one step back when only button B is, and
    the ring then shows the new position; it changes nothing when neither
    is accepted.  A press of A throttles B in the same call: with both
    buttons held, B, read before the deadline that A has just set, is not
    accepted, and the step is forward. *)
Theorem buttons_step (fl : Q → Q) (ra rb : Reading) (s : State) :
  let s' := process_button_presses fl ra rb s in
  let accepted_a :=
    button_a ra = true ∧ (next_press_allowed_at (self s) <= monotonic ra)%Q in
  (accepted_a →
   button_b rb = false ∨ (monotonic rb < fadd fl (monotonic ra) (1 # 4))%Q →
   self s' = advance 1 (set_next_press_allowed_at
                          (fadd fl (monotonic ra) (1 # 4)) (self s))
   ∧ circle_pos (self s') = (circle_pos (self s) + 1) mod 12
   ∧ cpx s' = update_pixel (circle_pos (self s')) (cpx s))
  ∧ (¬ accepted_a →
     button_b rb = true → (next_press_allowed_at (self s) <= monotonic rb)%Q →
     self s' = advance (-1) (set_next_press_allowed_at
                               (fadd fl (monotonic rb) (1 # 4)) (self s))
     ∧ circle_pos (self s') = (circle_pos (self s) - 1) mod 12
     ∧ cpx s' = update_pixel (circle_pos (self s')) (cpx s))
  ∧ (¬ accepted_a →
     button_b rb = false ∨ (monotonic rb < next_press_allowed_at (self s))%Q →
     s' = s).
Proof.
  intros s' accepted_a. unfold s', process_button_presses.
  assert (∀ t, fst (pressed fl 1 rb t) = false
               ↔ button_b rb = false ∨ (monotonic rb < next_press_allowed_at t)%Q)
    as Hb.
  { intros t. rewrite <- not_true_iff_false, (pressed_accepts fl 1 rb t).
    change (raw_button 1 rb) with (button_b rb). split.
    - intros H. destruct (button_b rb); [right|by left].
      apply Qnot_le_lt. tauto.
    - intros [-> | H] [? ?]; [done|]. by apply Qle_not_lt in H. }
  split; [|split].
  - intros Ha Hrb.
    rewrite (process_button_accepted fl 0 1 ra s) by (by apply pressed_accepts).
    cbv zeta. rewrite process_button_rejected; [done|]. by apply Hb.
  - intros Hna Hb1 Hb2.
    rewrite (process_button_rejected fl 0 1 ra s)
      by (rewrite <- not_true_iff_false, pressed_accepts; exact Hna).
    rewrite (process_button_accepted fl 1 (-1) rb s)
      by (by apply pressed_accepts). done.
  - intros Hna Hnb.
    rewrite (process_button_rejected fl 0 1 ra s)
      by (rewrite <- not_true_iff_false, pressed_accepts; exact Hna).
    apply process_button_rejected. by apply Hb.
Qed.

Lemma buttons_step_witness :
  let s' := process_button_presses binary53
              (board_with true true 1) (board_with true true (33 # 32)) fresh_state in
  circle_pos (self s') = (circle_pos (self fresh_state) + 1) mod 12
  ∧ cpx s' = update_pixel (circle_pos (self s')) (cpx fresh_state).
Proof.
  intros s'.
  apply (buttons_step binary53 (board_with true true 1)
           (board_with true true (33 # 32)) fresh_state).
  - split; [reflexivity|discriminate].
  - right. vm_compute. reflexivity.
Defined.

(** ** What the loop keeps true *)

Section Invariant.

Context (fl : Q → Q) (fpow : Q → Q → Q).

Lemma process_button_ok (index direction : Z) (r : Reading) (s : State) :
  program_ok s → program_ok (process_button fl index direction r s).
Proof.
  intros (Hok & Hshow & Htab & Hmax & Hvol & Hbuf).
  destruct (fst (pressed fl index r (self s))) eqn:Hp.
  - rewrite process_button_accepted by done. cbv zeta.
    repeat split; try done.
    + apply advance_ok.
    + apply advance_ok.
    + apply update_pixel_shows. by eapply shows_length.
  - by rewrite process_button_rejected.
Qed.

Lemma after_buttons_ok (u : Turn) (s : State) :
  program_ok s → program_ok (after_buttons fl u s).
Proof.
  intros Hs. unfold after_buttons, process_button_presses.
  by do 2 apply process_button_ok.
Qed.

(** [start_tone] touches neither the ring, the ceiling, the volume nor the
    waveform. *)
Lemma start_tone_keeps (f : Q) (c : CustomizedExpress) :
  pixels (start_tone fl f c) = pixels c
  ∧ _highest_supported_frequency (start_tone fl f c) = _highest_supported_frequency c
  ∧ _volume (start_tone fl f c) = _volume c
  ∧ buffer (_audiocore_raw_sample (start_tone fl f c))
    = buffer (_audiocore_raw_sample c).
Proof. unfold start_tone. by destruct (_ && _). Qed.

Lemma change_tone_if_needed_ok (r : Reading) (s s' : State) :
  program_ok s → change_tone_if_needed fl fpow r s = Some s' → program_ok s'.
Proof.
  intros Hs H.
  destruct (change_tone_if_needed_cases fl fpow r s s' H)
    as (f & _ & [[_ ->] | [_ ->]]); [|done].
  destruct Hs as (Hok & Hshow & Htab & Hmax & Hvol & Hbuf).
  destruct (start_tone_keeps f (cpx s)) as (Hp & Hm & Hv & Hb).
  unfold program_ok, shows. simpl. rewrite Hp, Hm, Hv, Hb. done.
Qed.

Lemma run_turn_ok (u : Turn) (s s' : State) :
  program_ok s → run_turn fl fpow u s = Some s' → program_ok s'.
Proof.
  intros Hs. rewrite run_turn_unfold.
  pose proof (after_buttons_ok u s Hs) as Ha.
  destruct (evaluates fl u s).
  - apply change_tone_if_needed_ok.
    destruct Ha as (Hok & Hshow & Htab & Hmax & Hvol & Hbuf). done.
  - by intros [= <-].
Qed.

Lemma run_ok (us : list Turn) (s s' : State) :
  program_ok s → run fl fpow us s = Some s' → program_ok s'.
Proof.
  revert s. induction us as [|u us IH]; intros s Hs; simpl.
  - by intros [= <-].
  - destruct (run_turn fl fpow u s) as [s1|] eqn:H1; [|done]. simpl.
    apply IH. by eapply run_turn_ok.
Qed.

(** The state that the module body builds. *)
Lemma main_state `{!Rounding fl} (t1 t2 : Q) (r : Reading) :
  main fl t1 t2 r
  = Some (TiltingArpeggios_init fl t1 t2 r
            {| pixels := replicate 10 (0, 0, 0); brightness := 1;
               _highest_supported_frequency := 20000;
               _speaker_enable := false; _volume := 1; _audio_out := [];
               _audiocore_raw_sample := new_RawSample [0; 32767] |}).
Proof.
  unfold main, CustomizedExpress_init, set_volume.
  rewrite (create_waveform_full_volume fl) by reflexivity.
  cbn [mbind option_bind].
  by rewrite (create_waveform_full_volume fl) by reflexivity.
Qed.

End Invariant.

(** X11. The loop of [run] keeps the program consistent and never raises:
    from a state in which the transposition is consistent, the ring shows
    the circle position, the tables are those of [__init__] and the board
    is as [set_volume(1.0)] left it, every finite number of turns completes,
    whatever the buttons, the switch, the accelerometer and the clock read,
    and ends in such a state again. *)
Theorem run_keeps_program_ok (fl : Q → Q) (fpow : Q → Q → Q) `{!Rounding fl}
    (us : list Turn) (s : State) :
  program_ok s →
  ∃ s', run fl fpow us s = Some s' ∧ program_ok s'.
Proof.
  intros Hs.
  destruct (run_returns fl fpow us s) as (s' & Hrun & _).
  { by destruct Hs as (_ & _ & Htab & _). }
  exists s'. split; [done|]. by eapply run_ok.
Qed.

Lemma run_keeps_program_ok_witness :
  ∃ s', run binary53 pow_chords
          [ {| at_button_a := board_with true false 0;
               at_button_b := board_with true false 0;
               at_test := 0; at_set := 0;
               at_tone := {| button_a := false; button_b := false; switch := false;
                             acceleration := (0, - (5 # 1), 0)%Q; monotonic := 0 |} |};
            turn_at (1 # 2) ] fresh_state = Some s'
        ∧ program_ok s'.
Proof.
  apply (run_keeps_program_ok binary53 pow_chords (Rounding0 := binary53_rounding)).
  split; [|split; [|split; [|split; [|split]]]].
  - split; [vm_compute; split; discriminate|reflexivity].
  - reflexivity.
  - reflexivity.
  - reflexivity.
  - reflexivity.
  - reflexivity.
Defined.

(** X12. The module body raises nothing and builds a consistent program:
    the waveform of a square wave at full volume is [0, 32767], the ring is
    dimmed to 0.2 and shows position 0 (pixel 4, green), nothing has been
    played, the speaker is off and no frequency is remembered; and the loop
    of [run] started from there completes every finite number of turns. *)
Theorem main_starts_program (fl : Q → Q) (fpow : Q → Q → Q) `{!Rounding fl}
    (t1 t2 : Q) (r : Reading) (us : list Turn) :
  ∃ s0 s',
    main fl t1 t2 r = Some s0
    ∧ program_ok s0
    ∧ circle_pos (self s0) = 0 ∧ key_offset (self s0) = 0
    ∧ last_freq (self s0) = None
    ∧ next_freq_change_allowed_at (self s0) = t1
    ∧ next_press_allowed_at (self s0) = t2
    ∧ pixels (cpx s0)
      = [(0,0,0); (0,0,0); (0,0,0); (0,0,0); (0,255,0);
         (0,0,0); (0,0,0); (0,0,0); (0,0,0); (0,0,0)]
    ∧ brightness (cpx s0) = fl (1 # 5)
    ∧ _audio_out (cpx s0) = [] ∧ _speaker_enable (cpx s0) = false
    ∧ _audiocore_raw_sample (cpx s0) = {| buffer := [0; 32767]; sample_rate := 8000 |}
    ∧ run fl fpow us s0 = Some s' ∧ program_ok s'.
Proof.
  pose proof (main_state fl t1 t2 r) as Hmain.
  set (s0 := TiltingArpeggios_init fl t1 t2 r _) in Hmain.
  assert (program_ok s0) as H0.
  { repeat split; try done. }
  destruct (run_returns fl fpow us s0) as (s' & Hrun & _); [done|].
  exists s0, s'. split_and!; try done. by eapply run_ok.
Qed.

Lemma main_starts_program_witness :
  ∃ s0 s',
    main binary53 0 0 board_at_rest = Some s0
    ∧ program_ok s0
    ∧ circle_pos (self s0) = 0 ∧ key_offset (self s0) = 0
    ∧ last_freq (self s0) = None
    ∧ next_freq_change_allowed_at (self s0) = 0%Q
    ∧ next_press_allowed_at (self s0) = 0%Q
    ∧ pixels (cpx s0)
      = [(0,0,0); (0,0,0); (0,0,0); (0,0,0); (0,255,0);
         (0,0,0); (0,0,0); (0,0,0); (0,0,0); (0,0,0)]
    ∧ brightness (cpx s0) = binary53 (1 # 5)
    ∧ _audio_out (cpx s0) = [] ∧ _speaker_enable (cpx s0) = false
    ∧ _audiocore_raw_sample (cpx s0) = {| buffer := [0; 32767]; sample_rate := 8000 |}
    ∧ run binary53 pow_chords [turn_at 0; turn_at (1 # 4)] s0 = Some s'
    ∧ program_ok s'.
Proof.
  exact (main_starts_program binary53 pow_chords (Rounding0 := binary53_rounding)
           0 0 board_at_rest [turn_at 0; turn_at (1 # 4)]).
Defined.

(** ** The throttle of the evaluation, and what is played *)

Section Throttle.

Context (fl : Q → Q) (fpow : Q → Q → Q).

(** The buttons touch nothing of the board but the ring, and not the
    deadline of the evaluation. *)
Lemma process_button_board (index direction : Z) (r : Reading) (s : State) :
  let s' := process_button fl index direction r s in
  next_freq_change_allowed_at (self s') = next_freq_change_allowed_at (self s)
  ∧ _speaker_enable (cpx s') = _speaker_enable (cpx s)
  ∧ _audiocore_raw_sample (cpx s') = _audiocore_raw_sample (cpx s).
Proof.
  cbv zeta. unfold process_button, pressed.
  destruct (raw_button index r); [|done].
  by destruct (Qle_bool _ _).
Qed.

Lemma after_buttons_board (u : Turn) (s : State) :
  let s' := after_buttons fl u s in
  next_freq_change_allowed_at (self s') = next_freq_change_allowed_at (self s)
  ∧ _speaker_enable (cpx s') = _speaker_enable (cpx s)
  ∧ _audiocore_raw_sample (cpx s') = _audiocore_raw_sample (cpx s).
Proof.
  cbv zeta. unfold after_buttons, process_button_presses.
  destruct (process_button_board 1 (-1) (at_button_b u)
              (process_button fl 0 1 (at_button_a u) s)) as (-> & -> & ->).
  apply process_button_board.
Qed.

(** The tone change does not touch the deadline of the evaluation. *)
Lemma change_tone_if_needed_deadline (r : Reading) (s s' : State) :
  change_tone_if_needed fl fpow r s = Some s' →
  next_freq_change_allowed_at (self s') = next_freq_change_allowed_at (self s).
Proof.
  intros H.
  by destruct (change_tone_if_needed_cases fl fpow r s s' H)
    as (f & _ & [[_ ->] | [_ ->]]).
Qed.

(** Turns that test the clock before the deadline are quiet, and leave the
    deadline and the board, the ring apart, as they are. *)
Lemma run_before_deadline (us : list Turn) (s : State) :
  Forall (λ u, (at_test u < next_freq_change_allowed_at (self s))%Q) us →
  ∃ s', run fl fpow us s = Some s'
        ∧ quiet fl us s = true
        ∧ next_freq_change_allowed_at (self s') = next_freq_change_allowed_at (self s)
        ∧ _speaker_enable (cpx s') = _speaker_enable (cpx s)
        ∧ _audiocore_raw_sample (cpx s') = _audiocore_raw_sample (cpx s).
Proof.
  revert s. induction us as [|u us IH]; intros s Hus; simpl.
  - by exists s.
  - apply Forall_cons in Hus as [Hu Hus].
    destruct (after_buttons_board u s) as (Hd & Hsp & Hsa).
    assert (evaluates fl u s = false) as He.
    { unfold evaluates. rewrite Hd. apply not_true_iff_false.
      rewrite Qle_bool_iff. by apply Qlt_not_le. }
    rewrite run_turn_unfold, He. simpl.
    destruct (IH (after_buttons fl u s)) as (s' & Hrun & Hq & Hd' & Hsp' & Hsa').
    { by rewrite Hd. }
    exists s'. rewrite Hd', Hsp', Hsa'. done.
Qed.

(** What [start_tone] does to the audio output. *)
Lemma start_tone_history (f : Q) (c : CustomizedExpress) :
  (_audio_out (start_tone fl f c) = _audio_out c
   ∧ _speaker_enable (start_tone fl f c) = _speaker_enable c)
  ∨ (∃ rate, _audio_out (start_tone fl f c)
             = {| played := {| buffer := buffer (_audiocore_raw_sample c);
                               sample_rate := rate |};
                  loop := true |} :: _audio_out c
             ∧ _speaker_enable (start_tone fl f c) = true).
Proof.
  unfold start_tone. destruct (_ && _); [right|left]; [|done].
  by eexists.
Qed.

(** One turn of the loop plays nothing or one looping tone with the
    waveform of the board, after which the speaker is on. *)
Lemma run_turn_history (u : Turn) (s s' : State) :
  run_turn fl fpow u s = Some s' →
  buffer (_audiocore_raw_sample (cpx s')) = buffer (_audiocore_raw_sample (cpx s))
  ∧ ((_audio_out (cpx s') = _audio_out (cpx s)
      ∧ _speaker_enable (cpx s') = _speaker_enable (cpx s))
     ∨ (∃ rate, _audio_out (cpx s')
                = {| played := {| buffer := buffer (_audiocore_raw_sample (cpx s));
                                  sample_rate := rate |};
                     loop := true |} :: _audio_out (cpx s)
                ∧ _speaker_enable (cpx s') = true)).
Proof.
  rewrite run_turn_unfold.
  destruct (after_buttons_keeps fl u s) as [_ Hout].
  destruct (after_buttons_board u s) as (_ & Hsp & Hsa).
  destruct (evaluates fl u s).
  - intros H. apply change_tone_if_needed_cases in H as (f & _ & [[_ ->] | [_ ->]]);
      simpl.
    + destruct (start_tone_keeps fl f (cpx (after_buttons fl u s))) as (_ & _ & _ & ->).
      rewrite Hsa. split; [done|].
      rewrite <- Hout, <- Hsp, <- Hsa. apply start_tone_history.
    + rewrite Hsa. split; [done|]. left. done.
  - intros [= <-]. rewrite Hsa. split; [done|]. left. done.
Qed.

End Throttle.

(** X13. The frequency is evaluated at most once per
    [MIN_NOTE_PLAY_SECONDS]: a turn of [run] that evaluates it moves the
    deadline to the clock plus 0.2, and the turns that test the clock before
    that deadline, however many, whatever the buttons and the tilt, complete
    and leave the deadline, [last_freq], the audio output, the sample and
    the speaker as they are: the tone keeps playing. *)
Theorem evaluation_throttled (fl : Q → Q) (fpow : Q → Q → Q)
    (u : Turn) (us : list Turn) (s s1 : State) :
  evaluates fl u s = true → run_turn fl fpow u s = Some s1 →
  Forall (λ u', (at_test u' < fadd fl (at_set u) (MIN_NOTE_PLAY_SECONDS fl))%Q) us →
  next_freq_change_allowed_at (self s1) = fadd fl (at_set u) (MIN_NOTE_PLAY_SECONDS fl)
  ∧ ∃ s2, run fl fpow us s1 = Some s2
          ∧ next_freq_change_allowed_at (self s2) = next_freq_change_allowed_at (self s1)
          ∧ last_freq (self s2) = last_freq (self s1)
          ∧ _audio_out (cpx s2) = _audio_out (cpx s1)
          ∧ _audiocore_raw_sample (cpx s2) = _audiocore_raw_sample (cpx s1)
          ∧ _speaker_enable (cpx s2) = _speaker_enable (cpx s1).
Proof.
  intros He Hrun Hus.
  assert (next_freq_change_allowed_at (self s1)
          = fadd fl (at_set u) (MIN_NOTE_PLAY_SECONDS fl)) as Hd.
  { rewrite run_turn_unfold, He in Hrun.
    by rewrite (change_tone_if_needed_deadline fl fpow _ _ _ Hrun). }
  split; [done|].
  destruct (run_before_deadline fl fpow us s1) as (s2 & Hrun2 & Hq & Hd2 & Hsp & Hsa).
  { by rewrite Hd. }
  exists s2. destruct (run_quiet fl fpow us s1 s2 Hq Hrun2) as [Hlast Hout].
  done.
Qed.

Lemma evaluation_throttled_witness :
  ∃ s1,
    run_turn binary53 pow_chords (turn_at 0) fresh_state = Some s1
    ∧ next_freq_change_allowed_at (self s1)
      = fadd binary53 0 (MIN_NOTE_PLAY_SECONDS binary53)
    ∧ ∃ s2, run binary53 pow_chords
              [ turn_at (1 # 16);
                {| at_button_a := board_with true false (1 # 8);
                   at_button_b := board_with true false (1 # 8);
                   at_test := 1 # 8; at_set := 1 # 8;
                   at_tone := {| button_a := true; button_b := false; switch := false;
                                 acceleration := (0, - (5 # 1), 0)%Q;
                                 monotonic := 1 # 8 |} |} ] s1 = Some s2
            ∧ next_freq_change_allowed_at (self s2) = next_freq_change_allowed_at (self s1)
            ∧ last_freq (self s2) = last_freq (self s1)
            ∧ _audio_out (cpx s2) = _audio_out (cpx s1)
            ∧ _audiocore_raw_sample (cpx s2) = _audiocore_raw_sample (cpx s1)
            ∧ _speaker_enable (cpx s2) = _speaker_enable (cpx s1).
Proof.
  eexists. split; [vm_compute; reflexivity|].
  eapply (evaluation_throttled binary53 pow_chords (turn_at 0) _ fresh_state).
  - vm_compute. reflexivity.
  - vm_compute. reflexivity.
  - repeat constructor.
Defined.

(** X14. What [run] plays only grows, by at most one [play] per turn of the
    loop: after any turns the audio output holds the earlier plays and, in
    front of them, at most as many new ones as there were turns; each new
    one loops and carries the waveform the board had at the start.  When
    the turns are over the speaker is enabled if one of them has played a
    tone, or if it was enabled before them. *)
Theorem play_history_grows (fl : Q → Q) (fpow : Q → Q → Q)
    (us : list Turn) (s s' : State) :
  run fl fpow us s = Some s' →
  ∃ new,
    _audio_out (cpx s') = new ++ _audio_out (cpx s)
    ∧ (length new ≤ length us)%nat
    ∧ Forall (λ p, loop p = true
                   ∧ buffer (played p) = buffer (_audiocore_raw_sample (cpx s))) new
    ∧ (new ≠ [] ∨ _speaker_enable (cpx s) = true → _speaker_enable (cpx s') = true).
Proof.
  revert s. induction us as [|u us IH]; intros s; simpl.
  - intros [= <-]. exists []. split_and!; [done|done|constructor|].
    intros [?|?]; done.
  - destruct (run_turn fl fpow u s) as [s1|] eqn:H1; [|done]. simpl. intros Hrun.
    destruct (IH s1 Hrun) as (new & Hout & Hlen & Hall & Hsp).
    destruct (run_turn_history fl fpow u s s1 H1) as [Hbuf [[Hsame Hsp1]|(rate & Hplay & Hsp1)]].
    + exists new. rewrite Hout, Hsame, <- Hbuf. split_and!; [done|lia|done|].
      rewrite <- Hsp1. exact Hsp.
    + exists (new ++ [{| played := {| buffer := buffer (_audiocore_raw_sample (cpx s));
                                      sample_rate := rate |};
                         loop := true |}]).
      rewrite Hout, Hplay, <- app_assoc. split_and!; [done| | |].
      * rewrite length_app. simpl. lia.
      * apply Forall_app. split; [by rewrite <- Hbuf|]. by repeat constructor.
      * intros _. apply Hsp. by right.
Qed.

Lemma play_history_grows_witness :
  ∃ s' new,
    run binary53 pow_chords [turn_at 0; turn_at (1 # 8); turn_at (1 # 4)] fresh_state
    = Some s'
    ∧ _audio_out (cpx s') = new ++ _audio_out (cpx fresh_state)
    ∧ (length new ≤ 3)%nat
    ∧ Forall (λ p, loop p = true
                   ∧ buffer (played p)
                     = buffer (_audiocore_raw_sample (cpx fresh_state))) new
    ∧ (new ≠ [] ∨ _speaker_enable (cpx fresh_state) = true
       → _speaker_enable (cpx s') = true).
Proof.
  assert (∃ s', run binary53 pow_chords
                  [turn_at 0; turn_at (1 # 8); turn_at (1 # 4)] fresh_state = Some s')
    as [s' Hrun] by (eexists; vm_compute; reflexivity).
  exists s'.
  destruct (play_history_grows binary53 pow_chords
              [turn_at 0; turn_at (1 # 8); turn_at (1 # 4)] fresh_state s' Hrun)
    as (new & H).
  exists new. split; [exact Hrun|exact H].
Defined.

(** ** The tone change on the running program *)

Section ToneSounds.

Context (fl : Q → Q) (fpow : Q → Q → Q)
        `{!Rounding fl} `{!Exponentiation fpow} `{!IncreasingPow fpow}.

(** On the running program the frequency of the tone change exists and is
    one of the instrument's. *)
Lemma target_freq_between (r : Reading) (s : State) :
  program_ok s →
  ∃ f, target_freq fl fpow r s = Some f ∧ (65406 # 1000 <= f <= 4187)%Q.
Proof.
  intros (Hok & _ & Htab & _).
  pose proof (key_offset_range (self s) Hok) as Hk.
  assert (arpeggio_index r = 0 ∨ arpeggio_index r = 1) as Hsel.
  { unfold arpeggio_index. destruct (switch r); auto. }
  destruct (selected_note_between fl (tilt fl r) (arpeggio_index r)
              (tilt_range fl r) Hsel)
    as (table & i & note & Htable & Hi & Hnote & Hr).
  exists (calc_freq fl fpow (key_offset (self s) + note)).
  unfold target_freq, freq.
  rewrite Htab, Htable. simpl. rewrite Hi. simpl. rewrite Hnote. simpl.
  split; [done|].
  apply (calc_freq_between fl fpow). lia.
Qed.

(** The sample rate of a tone of the instrument: twice its frequency,
    truncated. *)
Lemma sample_rate_between (f : Q) :
  (65406 # 1000 <= f <= 4187)%Q →
  130 ≤ Py.int (fmul fl (inject_Z generator_length) f) ≤ 8374.
Proof.
  intros [Hlo Hhi]. unfold fmul, generator_length.
  rewrite <- (int_Z 130), <- (int_Z 8374) at 1. split; apply int_mono.
  - apply Qle_trans with (fl (inject_Z 130)).
    + apply Qle_lteq. right. symmetry. apply (fl_Z fl). simpl. lia.
    + apply fl_mono. unfold inject_Z. lra.
  - apply Qle_trans with (fl (inject_Z 8374)).
    + apply fl_mono. unfold inject_Z. lra.
    + apply Qle_lteq. right. apply (fl_Z fl). simpl. lia.
Qed.

End ToneSounds.

(** X15. On the running program the tone change always sounds: whatever
    the board reads, [change_tone_if_needed] obtains a frequency between
    65.406 and 4187 Hz, and when it differs from [last_freq] (always, when
    no tone has been started yet) [start_tone] passes its guard: exactly
    one looping play of the waveform [0, 32767] is made, at a sample rate of
    twice the frequency truncated, between 130 and 8374, the speaker is
    switched on and the frequency is remembered.  When the frequency equals
    [last_freq] the state is left as it is. *)
Theorem tone_change_sounds (fl : Q → Q) (fpow : Q → Q → Q)
    `{!Rounding fl} `{!Exponentiation fpow} `{!IncreasingPow fpow}
    (r : Reading) (s : State) :
  program_ok s →
  ∃ f s',
    target_freq fl fpow r s = Some f
    ∧ change_tone_if_needed fl fpow r s = Some s'
    ∧ (65406 # 1000 <= f <= 4187)%Q
    ∧ (last_freq (self s) = None → freq_differs f (last_freq (self s)) = true)
    ∧ (freq_differs f (last_freq (self s)) = true →
       ∃ rate,
         rate = Py.int (fmul fl 2 f) ∧ 130 ≤ rate ≤ 8374
         ∧ _audio_out (cpx s')
           = {| played := {| buffer := [0; 32767]; sample_rate := rate |};
                loop := true |} :: _audio_out (cpx s)
         ∧ _audiocore_raw_sample (cpx s')
           = {| buffer := [0; 32767]; sample_rate := rate |}
         ∧ _speaker_enable (cpx s') = true
         ∧ last_freq (self s') = Some f)
    ∧ (freq_differs f (last_freq (self s)) = false → s' = s).
Proof.
  intros Hs. destruct (target_freq_between fl fpow r s Hs) as (f & Hf & Hlo & Hhi).
  destruct Hs as (_ & _ & _ & Hmax & Hvol & Hbuf).
  exists f. unfold change_tone_if_needed. unfold target_freq in Hf. rewrite Hf. simpl.
  destruct (freq_differs f (last_freq (self s))) eqn:Hd.
  - eexists. split_and!; try done.
    intros _. exists (Py.int (fmul fl 2 f)). split; [done|].
    split; [by apply (sample_rate_between fl)|].
    unfold start_tone. rewrite Hmax, Hvol.
    assert (Qle_bool f (inject_Z 20000) = true) as ->.
    { apply Qle_bool_iff. unfold inject_Z. lra. }
    simpl. rewrite Hbuf. done.
  - exists s. split_and!; try done.
    intros H. rewrite H in Hd. done.
Qed.

Lemma tone_change_sounds_witness :
  ∃ f s',
    target_freq binary53 pow_chords board_at_rest fresh_state = Some f
    ∧ change_tone_if_needed binary53 pow_chords board_at_rest fresh_state = Some s'
    ∧ (65406 # 1000 <= f <= 4187)%Q
    ∧ (last_freq (self fresh_state) = None
       → freq_differs f (last_freq (self fresh_state)) = true)
    ∧ (freq_differs f (last_freq (self fresh_state)) = true →
       ∃ rate,
         rate = Py.int (fmul binary53 2 f) ∧ 130 ≤ rate ≤ 8374
         ∧ _audio_out (cpx s')
           = {| played := {| buffer := [0; 32767]; sample_rate := rate |};
                loop := true |} :: _audio_out (cpx fresh_state)
         ∧ _audiocore_raw_sample (cpx s')
           = {| buffer := [0; 32767]; sample_rate := rate |}
         ∧ _speaker_enable (cpx s') = true
         ∧ last_freq (self s') = Some f)
    ∧ (freq_differs f (last_freq (self fresh_state)) = false → s' = fresh_state).
Proof.
  apply (tone_change_sounds binary53 pow_chords
           (Rounding0 := binary53_rounding)
           (Exponentiation0 := pow_chords_exponentiation)
           (IncreasingPow0 := pow_chords_increasing)
           board_at_rest fresh_state).
  split; [|split; [|split; [|split; [|split]]]].
  - split; [vm_compute; split; discriminate|reflexivity].
  - reflexivity.
  - reflexivity.
  - reflexivity.
  - reflexivity.
  - reflexivity.
Defined.

(** ** The volume *)

Section Volume.

Context (fl : Q → Q).

(** [set_volume] stores the volume and rebuilds the waveform, whose second
    value, the amplitude, must fit 16 unsigned bits. *)
Lemma set_volume_cases (v : Q) (c : CustomizedExpress) :
  set_volume fl v c
  = let a := Py.int (fmul fl (fmul fl (1 # 2) v) 65535) in
    if (0 <=? a) && (a <=? 65535)
    then Some (set_raw_sample (new_RawSample [0; a]) (set_volume_attr v c))
    else None.
Proof.
  unfold set_volume, _create_waveform, _square_waveform, array_H, generator_length.
  cbn [Z.eqb Pos.eqb mbind option_bind _volume set_volume_attr forallb].
  change (inject_Z (2 ^ 16 - 1)) with 65535%Q.
  cbv zeta. change ((0 <=? 0) && (0 <=? 65535)) with true.
  destruct (0 <=? _); [|done]. by destruct (_ <=? 65535).
Qed.

Context `{!Rounding fl}.

Lemma amplitude_mono (v v' : Q) :
  (v <= v')%Q →
  Py.int (fmul fl (fmul fl (1 # 2) v) 65535)
  ≤ Py.int (fmul fl (fmul fl (1 # 2) v') 65535).
Proof.
  intros Hv. unfold fmul. apply int_mono, fl_mono.
  assert (fl ((1 # 2) * v) <= fl ((1 # 2) * v'))%Q by (apply fl_mono; lra).
  lra.
Qed.

(** The amplitudes of the volumes 0, 1 and 2, and of a volume beyond the
    range on either side. *)
Lemma amplitude_at (n : Z) :
  0 ≤ n ≤ 2 →
  Py.int (fmul fl (fmul fl (1 # 2) (inject_Z n)) 65535) = Py.int (inject_Z (n * 65535) / 2).
Proof.
  intros Hn. unfold fmul. apply int_proper.
  assert (fl ((1 # 2) * inject_Z n) == inject_Z n * 2 ^ (-1))%Q as ->.
  { apply Qeq_trans with (fl (inject_Z n * 2 ^ (-1))).
    - apply (fl_proper fl). change (2 ^ (-1))%Q with (1 # 2)%Q. ring.
    - apply fl_exact. lia. }
  apply Qeq_trans with (fl (inject_Z (n * 65535) * 2 ^ (-1))).
  - apply (fl_proper fl). rewrite inject_Z_mult.
    change (inject_Z 65535) with 65535%Q. ring.
  - rewrite fl_exact by lia. reflexivity.
Qed.

Lemma amplitude_too_large (v : Q) :
  (2001 # 1000 <= v)%Q → 65536 ≤ Py.int (fmul fl (fmul fl (1 # 2) v) 65535).
Proof.
  intros Hv. rewrite <- (int_Z 65536) at 1. unfold fmul. apply int_mono.
  assert (inject_Z 16385 * 2 ^ (-14) <= fl ((1 # 2) * v))%Q as H.
  { rewrite <- (fl_exact (fl := fl)) by lia. apply fl_mono.
    change (inject_Z 16385 * 2 ^ (-14))%Q with (16385 # 16384)%Q. lra. }
  change (inject_Z 16385 * 2 ^ (-14))%Q with (16385 # 16384)%Q in H.
  apply Qle_trans with (fl (inject_Z 65536)).
  - apply Qle_lteq. right. symmetry. apply (fl_Z fl). simpl. lia.
  - apply fl_mono. unfold inject_Z. lra.
Qed.

Lemma amplitude_negative (v : Q) :
  (v <= - (1 # 1000))%Q → Py.int (fmul fl (fmul fl (1 # 2) v) 65535) ≤ -1.
Proof.
  intros Hv. rewrite <- (int_Z (-1)) at 1. unfold fmul. apply int_mono.
  assert (fl ((1 # 2) * v) <= inject_Z (-1) * 2 ^ (-14))%Q as H.
  { rewrite <- (fl_exact (fl := fl) (-1) (-14)) by lia. apply fl_mono.
    change (inject_Z (-1) * 2 ^ (-14))%Q with (- (1 # 16384))%Q. lra. }
  change (inject_Z (-1) * 2 ^ (-14))%Q with (- (1 # 16384))%Q in H.
  apply Qle_trans with (fl (inject_Z (-1))).
  - apply fl_mono. unfold inject_Z. lra.
  - apply Qle_lteq. right. apply (fl_Z fl). simpl. lia.
Qed.

End Volume.

(** X16. [set_volume] accepts every volume from 0 to 2, not only up to 1:
    it stores the volume and replaces the sample by a fresh one (rate 8000)
    with the waveform [0, a], leaving the ring, the speaker and what has
    been played as they are.  The amplitude [a] does not decrease when the
    volume grows; it is 0 at volume 0, at most 32767 up to volume 1, 32767
    at volume 1 and 65535, the largest 16-bit value, at volume 2. *)
Theorem set_volume_amplitude (fl : Q → Q) `{!Rounding fl}
    (v v' : Q) (c : CustomizedExpress) :
  (0 <= v)%Q → (v <= v')%Q → (v' <= 2)%Q →
  ∃ a a',
    set_volume fl v c
    = Some {| pixels := pixels c; brightness := brightness c;
              _highest_supported_frequency := _highest_supported_frequency c;
              _speaker_enable := _speaker_enable c; _volume := v;
              _audio_out := _audio_out c;
              _audiocore_raw_sample := {| buffer := [0; a]; sample_rate := 8000 |} |}
    ∧ set_volume fl v' c
      = Some (set_raw_sample (new_RawSample [0; a']) (set_volume_attr v' c))
    ∧ 0 ≤ a ∧ a ≤ a' ∧ a' ≤ 65535
    ∧ ((v == 0)%Q → a = 0)
    ∧ ((v <= 1)%Q → a ≤ 32767)
    ∧ ((v == 1)%Q → a = 32767)
    ∧ ((v == 2)%Q → a = 65535).
Proof.
  intros H0 Hv H2.
  set (amp := λ x, Py.int (fmul fl (fmul fl (1 # 2) x) 65535)).
  assert (amp 0%Q = 0) as A0 by exact (amplitude_at fl 0 ltac:(lia)).
  assert (amp 1%Q = 32767) as A1 by exact (amplitude_at fl 1 ltac:(lia)).
  assert (amp 2%Q = 65535) as A2 by exact (amplitude_at fl 2 ltac:(lia)).
  assert (∀ x y, (x <= y)%Q → amp x ≤ amp y) as Hmono
    by (intros x y; apply (amplitude_mono fl)).
  assert (∀ x y, (x == y)%Q → amp x = amp y) as Heq.
  { intros x y Hxy. apply Z.le_antisymm; apply Hmono; lra. }
  pose proof (Hmono 0%Q v H0) as Ha0. rewrite A0 in Ha0.
  pose proof (Hmono v v' Hv) as Haa.
  pose proof (Hmono v' 2%Q H2) as Ha2. rewrite A2 in Ha2.
  exists (amp v), (amp v'). rewrite !set_volume_cases. cbv zeta. fold (amp v) (amp v').
  assert ((0 <=? amp v) && (amp v <=? 65535) = true) as ->.
  { apply andb_true_iff. split; apply Z.leb_le; lia. }
  assert ((0 <=? amp v') && (amp v' <=? 65535) = true) as ->.
  { apply andb_true_iff. split; apply Z.leb_le; lia. }
  split_and!; try done.
  - intros H. by rewrite (Heq v 0%Q H).
  - intros H. rewrite <- A1. by apply Hmono.
  - intros H. by rewrite (Heq v 1%Q H).
  - intros H. by rewrite (Heq v 2%Q H).
Qed.

Lemma set_volume_amplitude_witness :
  ∃ a a',
    set_volume binary53 (1 # 2) fresh_board
    = Some {| pixels := pixels fresh_board; brightness := brightness fresh_board;
              _highest_supported_frequency := _highest_supported_frequency fresh_board;
              _speaker_enable := _speaker_enable fresh_board; _volume := 1 # 2;
              _audio_out := _audio_out fresh_board;
              _audiocore_raw_sample := {| buffer := [0; a]; sample_rate := 8000 |} |}
    ∧ set_volume binary53 (3 # 2) fresh_board
      = Some (set_raw_sample (new_RawSample [0; a']) (set_volume_attr (3 # 2) fresh_board))
    ∧ 0 ≤ a ∧ a ≤ a' ∧ a' ≤ 65535
    ∧ ((1 # 2 == 0)%Q → a = 0)
    ∧ ((1 # 2 <= 1)%Q → a ≤ 32767)
    ∧ ((1 # 2 == 1)%Q → a = 32767)
    ∧ ((1 # 2 == 2)%Q → a = 65535).
Proof.
  apply (set_volume_amplitude binary53 (Rounding0 := binary53_rounding)
           (1 # 2) (3 # 2) fresh_board); discriminate.
Defined.

(** X17. [set_volume] raises outside that range: for a volume of 2.001 or
    more the amplitude exceeds 65535, for a volume of -0.001 or less it is
    negative, and [array.array("H", ...)] raises [OverflowError]. *)
Theorem set_volume_overflow (fl : Q → Q) `{!Rounding fl} (v : Q) (c : CustomizedExpress) :
  (2001 # 1000 <= v)%Q ∨ (v <= - (1 # 1000))%Q →
  set_volume fl v c = None.
Proof.
  intros Hv. rewrite set_volume_cases. cbv zeta.
  destruct Hv as [Hv|Hv].
  - pose proof (amplitude_too_large fl v Hv) as Ha.
    assert ((Py.int (fmul fl (fmul fl (1 # 2) v) 65535) <=? 65535) = false) as ->
      by (apply Z.leb_gt; lia).
    by rewrite andb_false_r.
  - pose proof (amplitude_negative fl v Hv) as Ha.
    assert ((0 <=? Py.int (fmul fl (fmul fl (1 # 2) v) 65535)) = false) as ->
      by (apply Z.leb_gt; lia).
    done.
Qed.

Lemma set_volume_overflow_witness :
  set_volume binary53 (5 # 2) fresh_board = None
  ∧ set_volume binary53 (- (1 # 10)) fresh_board = None.
Proof.
  split.
  - apply (set_volume_overflow binary53 (Rounding0 := binary53_rounding)).
    left. discriminate.
  - apply (set_volume_overflow binary53 (Rounding0 := binary53_rounding)).
    right. discriminate.
Defined.

(** X18. A new volume applies from the next tone on: [set_volume] neither
    restarts nor stops what is playing, and the next [start_tone] at a
    frequency up to the ceiling plays the new waveform at twice that
    frequency; after [set_volume(0)] every [start_tone] does nothing. *)
Theorem volume_applies_at_next_tone (fl : Q → Q) `{!Rounding fl}
    (v : Q) (c : CustomizedExpress) :
  (0 <= v <= 2)%Q →
  ∃ a c',
    set_volume fl v c = Some c'
    ∧ 0 ≤ a ≤ 65535
    ∧ _audio_out c' = _audio_out c
    ∧ _speaker_enable c' = _speaker_enable c
    ∧ ((v == 0)%Q → ∀ f, start_tone fl f c' = c')
    ∧ ((0 < v)%Q →
       ∀ f, (f <= inject_Z (_highest_supported_frequency c))%Q →
            _audio_out (start_tone fl f c')
            = {| played := {| buffer := [0; a];
                              sample_rate := Py.int (fmul fl 2 f) |};
                 loop := true |} :: _audio_out c
            ∧ _speaker_enable (start_tone fl f c') = true).
Proof.
  intros [H0 H2].
  set (a := Py.int (fmul fl (fmul fl (1 # 2) v) 65535)).
  assert (0 ≤ a ≤ 65535) as Ha.
  { pose proof (amplitude_mono fl (inject_Z 0) v H0) as Hlo.
    pose proof (amplitude_mono fl v (inject_Z 2) H2) as Hhi.
    rewrite (amplitude_at fl 0 ltac:(lia)) in Hlo.
    rewrite (amplitude_at fl 2 ltac:(lia)) in Hhi.
    change (Py.int (inject_Z (0 * 65535) / 2)) with 0 in Hlo.
    change (Py.int (inject_Z (2 * 65535) / 2)) with 65535 in Hhi.
    done. }
  exists a. eexists. rewrite set_volume_cases. cbv zeta. fold a.
  assert ((0 <=? a) && (a <=? 65535) = true) as ->.
  { apply andb_true_iff. split; apply Z.leb_le; lia. }
  split_and!; try done; try lia.
  - intros Hv f. unfold start_tone. simpl.
    assert (Qle_bool v 0 = true) as ->; [|by rewrite andb_false_r].
    apply Qle_bool_iff. lra.
  - intros Hv f Hf. unfold start_tone. simpl.
    rewrite (proj2 (Qle_bool_iff _ _) Hf).
    assert (Qle_bool v 0 = false) as ->; [|done].
    apply not_true_iff_false. rewrite Qle_bool_iff. lra.
Qed.

Lemma volume_applies_at_next_tone_witness :
  ∃ a c',
    set_volume binary53 (1 # 2) fresh_board = Some c'
    ∧ 0 ≤ a ≤ 65535
    ∧ _audio_out c' = _audio_out fresh_board
    ∧ _speaker_enable c' = _speaker_enable fresh_board
    ∧ ((1 # 2 == 0)%Q → ∀ f, start_tone binary53 f c' = c')
    ∧ ((0 < 1 # 2)%Q →
       ∀ f, (f <= inject_Z (_highest_supported_frequency fresh_board))%Q →
            _audio_out (start_tone binary53 f c')
            = {| played := {| buffer := [0; a];
                              sample_rate := Py.int (fmul binary53 2 f) |};
                 loop := true |} :: _audio_out fresh_board
            ∧ _speaker_enable (start_tone binary53 f c') = true).
Proof.
  apply (volume_applies_at_next_tone binary53 (Rounding0 := binary53_rounding)
           (1 # 2) fresh_board).
  split; discriminate.
Defined.

(** ** The throttle of the buttons in the loop *)

Section Presses.

Context (fl : Q → Q) (fpow : Q → Q → Q).

(** A turn whose two button reads come before the deadline of the presses
    does with the buttons nothing at all. *)
Lemma after_buttons_early (u : Turn) (s : State) :
  (monotonic (at_button_a u) < next_press_allowed_at (self s))%Q →
  (monotonic (at_button_b u) < next_press_allowed_at (self s))%Q →
  after_buttons fl u s = s.
Proof.
  intros Ha Hb. unfold after_buttons, process_button_presses.
  rewrite (process_button_rejected fl 0 1 (at_button_a u) s).
  - apply process_button_rejected. apply not_true_iff_false.
    rewrite pressed_accepts. intros [_ H]. by apply Qle_not_lt in H.
  - apply not_true_iff_false.
    rewrite pressed_accepts. intros [_ H]. by apply Qle_not_lt in H.
Qed.

(** The evaluation of the frequency touches neither the transposition, the
    deadline of the presses nor the ring. *)
Lemma change_tone_if_needed_position (r : Reading) (s s' : State) :
  change_tone_if_needed fl fpow r s = Some s' →
  circle_pos (self s') = circle_pos (self s)
  ∧ key_offset (self s') = key_offset (self s)
  ∧ next_press_allowed_at (self s') = next_press_allowed_at (self s)
  ∧ pixels (cpx s') = pixels (cpx s).
Proof.
  intros H.
  destruct (change_tone_if_needed_cases fl fpow r s s' H)
    as (f & _ & [[_ ->] | [_ ->]]); [|done].
  simpl. by destruct (start_tone_keeps fl f (cpx s)) as (-> & _).
Qed.

End Presses.

(** X19. Holding a button does not spin the circle: the turns of [run]
    whose button reads come before the deadline that the last accepted
    press has set, however many and whatever the buttons read, complete and
    leave the circle position, the key offset, that deadline and the ring
    as they are, while the tone may still change with the tilt. *)
Theorem presses_throttled (fl : Q → Q) (fpow : Q → Q → Q) `{!Rounding fl}
    (us : list Turn) (s : State) :
  arpeg_note_indexes (self s) = create_arpeggios (NUM_OCTAVES + 2) →
  Forall (λ u, (monotonic (at_button_a u) < next_press_allowed_at (self s))%Q
               ∧ (monotonic (at_button_b u) < next_press_allowed_at (self s))%Q) us →
  ∃ s', run fl fpow us s = Some s'
        ∧ circle_pos (self s') = circle_pos (self s)
        ∧ key_offset (self s') = key_offset (self s)
        ∧ next_press_allowed_at (self s') = next_press_allowed_at (self s)
        ∧ pixels (cpx s') = pixels (cpx s).
Proof.
  revert s. induction us as [|u us IH]; intros s Htab Hus; simpl.
  - by exists s.
  - apply Forall_cons in Hus as [[Ha Hb] Hus].
    destruct (run_turn_returns fl fpow u s Htab) as (s1 & Hrun & Htab1).
    rewrite Hrun. simpl.
    assert (circle_pos (self s1) = circle_pos (self s)
            ∧ key_offset (self s1) = key_offset (self s)
            ∧ next_press_allowed_at (self s1) = next_press_allowed_at (self s)
            ∧ pixels (cpx s1) = pixels (cpx s)) as (Hc & Hk & Hd & Hp).
    { rewrite run_turn_unfold, (after_buttons_early fl u s Ha Hb) in Hrun.
      destruct (evaluates fl u s).
      - by apply change_tone_if_needed_position in Hrun.
      - by injection Hrun as <-. }
    destruct (IH s1 Htab1) as (s' & Hrun' & Hc' & Hk' & Hd' & Hp').
    { by rewrite Hd. }
    exists s'. rewrite Hc', Hk', Hd', Hp'. done.
Qed.

Lemma presses_throttled_witness :
  let s := process_button_presses binary53 (board_with true false 0)
             (board_with true false 0) fresh_state in
  ∃ s', run binary53 pow_chords
          [ {| at_button_a := board_with true true (1 # 8);
               at_button_b := board_with true true (1 # 8);
               at_test := 1 # 8; at_set := 1 # 8;
               at_tone := {| button_a := true; button_b := true; switch := false;
                             acceleration := (0, - (5 # 1), 0)%Q;
                             monotonic := 1 # 8 |} |};
            {| at_button_a := board_with false true (3 # 16);
               at_button_b := board_with false true (3 # 16);
               at_test := 3 # 16; at_set := 3 # 16;
               at_tone := board_with false true (3 # 16) |} ] s = Some s'
        ∧ circle_pos (self s') = circle_pos (self s)
        ∧ key_offset (self s') = key_offset (self s)
        ∧ next_press_allowed_at (self s') = next_press_allowed_at (self s)
        ∧ pixels (cpx s') = pixels (cpx s).
Proof.
  intros s.
  apply (presses_throttled binary53 pow_chords (Rounding0 := binary53_rounding)).
  - vm_compute. reflexivity.
  - repeat constructor.
Defined.
